(** * OpenMW editor and settings window: brush history and script-page search

    A shallow embedding of

    - [apps/opencs/view/widget/scenetooltexturebrush.cpp]: the brush history
      kept by [SceneToolTextureBrush] ([mBrushHistory], a
      [std::vector<std::string>]), and
    - [apps/openmw/mwgui/settingswindow.cpp]: [escapeRegex], [wordSearch],
      [weightedSearch] and the ranking loop of
      [SettingsWindow::renderScriptSettings],

    together with a model of the part of [std::regex] (POSIX extended
    grammar) that these functions call. *)

From Stdlib Require Import ZArith Lia Bool Ascii String DecimalString DecimalZ.
From stdpp Require Import base list strings sorting.

Local Open Scope Z_scope.

(** ** The brush history of [SceneToolTextureBrush] *)

Module BrushHistory.

(** [mBrushHistory] is used as a [std::vector<std::string>] ([resize],
    [insert], [pop_back], [operator[]]); position 0 is the front. *)
Abbreviation history := (list string).

(** The constructor: [mBrushHistory.resize(1); mBrushHistory[0] = "L0#0";] *)
Definition initial : history := ["L0#0"%string].

(** [updateBrushHistory]:
    [mBrushHistory.insert(mBrushHistory.begin(), brushTexture);
     if (mBrushHistory.size() > 5) mBrushHistory.pop_back();] *)
Definition updateBrushHistory (brushTexture : string) (h : history) : history :=
  let h1 := brushTexture :: h in
  if 5 <? Z.of_nat (length h1) then removelast h1 else h1.

(** A sequence of [updateBrushHistory] calls, first call first. *)
Definition uses (xs : list string) (h : history) : history :=
  fold_left (fun acc x => updateBrushHistory x acc) xs h.

(** What [clicked] leaves behind: the history, and the texture id it passes
    to [setBrushTexture] and emits with [passTextureId] (if any). *)
Record clicked_result := ClickedResult {
  cr_history : history;
  cr_emitted : option string
}.

(** [clicked (const QModelIndex& index)], with [index.column()] and
    [index.row()] as arguments (both [int]).  [mBrushHistory[index.row()]]
    is [std::vector::operator[]]: outside [0 <= row < size] the behaviour
    is undefined, which the model renders as [None].

    [if (index.column()==0 || index.column()==1) {
       std::string brushTexture = mBrushHistory[index.row()];
       std::swap(mBrushHistory[index.row()], mBrushHistory[0]);
       mTextureBrushWindow->setBrushTexture(brushTexture);
       emit passTextureId(brushTexture); ... }] *)
Definition clicked (column row : Z) (h : history) : option clicked_result :=
  if (column =? 0) || (column =? 1) then
    if (0 <=? row) && (row <? Z.of_nat (length h)) then
      let i := Z.to_nat row in
      match h !! i, h !! 0%nat with
      | Some brushTexture, Some front =>
          Some (ClickedResult (<[0%nat := brushTexture]> (<[i := front]> h))
                              (Some brushTexture))
      | _, _ => None
      end
    else None
  else Some (ClickedResult h None).

End BrushHistory.

(** ** The part of [std::regex] used by the settings window

    [settingswindow.cpp] builds every pattern with
    [std::regex_constants::extended]: the POSIX extended grammar.  Texts and
    patterns are [std::string]s, here lists of characters.  The model
    follows POSIX for the grammar and for matching (the leftmost match, and
    the longest one there), and libstdc++ where POSIX is silent. *)

Module StdRegex.

Definition str := list ascii.

Definition code (c : ascii) : N := N_of_ascii c.

(** *** [std::ctype<char>] in the classic locale *)

Definition in_range (lo hi c : N) : bool := ((lo <=? c) && (c <=? hi))%N.

Definition isupper (c : ascii) : bool := in_range 65 90 (code c).
Definition islower (c : ascii) : bool := in_range 97 122 (code c).
Definition isdigit (c : ascii) : bool := in_range 48 57 (code c).
Definition isalpha (c : ascii) : bool := isupper c || islower c.
Definition isalnum (c : ascii) : bool := isalpha c || isdigit c.
Definition isspace (c : ascii) : bool :=
  (code c =? 32)%N || in_range 9 13 (code c).
Definition isblank (c : ascii) : bool := ((code c =? 32) || (code c =? 9))%N.
Definition iscntrl (c : ascii) : bool := ((code c <? 32) || (code c =? 127))%N.
Definition isgraph (c : ascii) : bool := in_range 33 126 (code c).
Definition isprint (c : ascii) : bool := in_range 32 126 (code c).
Definition ispunct (c : ascii) : bool := isgraph c && negb (isalnum c).
Definition isxdigit (c : ascii) : bool :=
  isdigit c || in_range 65 70 (code c) || in_range 97 102 (code c).

Definition tolower (c : ascii) : ascii :=
  if isupper c then ascii_of_N (code c + 32) else c.
Definition toupper (c : ascii) : ascii :=
  if islower c then ascii_of_N (code c - 32) else c.

(** *** Abstract syntax of a compiled pattern *)

Inductive cclass :=
| c_alnum | c_alpha | c_blank | c_cntrl | c_digit | c_graph
| c_lower | c_print | c_punct | c_space | c_upper | c_xdigit.

(** The members of a bracket expression. *)
Inductive bitem :=
| BChar (c : ascii)
| BRange (lo hi : ascii)
| BClass (k : cclass).

Inductive re :=
| Eps
| Lit (c : ascii)                           (* an ordinary character *)
| Any                                       (* [.] *)
| Bol                                       (* [^] *)
| Eol                                       (* [$] *)
| Bracket (neg : bool) (items : list bitem) (* [[...]] and [[^...]] *)
| Group (r : re)                            (* [( )], a marked sub-expression *)
| Cat (r1 r2 : re)
| Alt (r1 r2 : re)
| Star (r : re)
| Plus (r : re)
| Opt (r : re).

(** A [std::regex] object: the compiled pattern and the [icase] flag. *)
Record regex := Regex { rx_ast : re; rx_icase : bool }.

(** [basic_regex::mark_count()] *)
Fixpoint mark_count (r : re) : nat :=
  match r with
  | Group r1 => S (mark_count r1)
  | Cat r1 r2 | Alt r1 r2 => (mark_count r1 + mark_count r2)%nat
  | Star r1 | Plus r1 | Opt r1 => mark_count r1
  | _ => O
  end.

(** *** Compiling a pattern of the extended grammar

    The scanner reads the pattern one character at a time.  A [frame] holds
    the branches already closed by [|] and the pieces of the branch being
    read, both latest first; [(] opens a frame and [)] closes it. *)

Record frame := Frame { f_alts : list re; f_cur : list re }.

(** What has been read inside a bracket expression, latest first. *)
Inductive braw :=
| RChar (c : ascii)
| RDash
| RClass (k : cclass).

Inductive mode :=
| MNormal
| MEscape                                           (* after a backslash *)
| MBracketOpen                                      (* after [[] *)
| MBracket (neg first : bool) (raw : list braw)     (* inside [[...]] *)
| MBracketNested (neg : bool) (raw : list braw)     (* after [[] inside [[...]] *)
| MClass (neg : bool) (raw : list braw) (name : str)     (* inside [[: ... ] *)
| MClassEnd (neg : bool) (raw : list braw) (name : str). (* after [[:name:] *)

Record pstate := PState {
  p_stack : list frame;
  p_top : frame;
  p_mode : mode
}.

Definition seq_of (rs : list re) : re :=
  match rs with
  | [] => Eps
  | r :: rs' => fold_left Cat rs' r
  end.

Definition alt_of (rs : list re) : re :=
  match rs with
  | [] => Eps
  | r :: rs' => fold_left Alt rs' r
  end.

(** The expression a frame stands for. *)
Definition close (f : frame) : re :=
  alt_of (rev (seq_of (rev (f_cur f)) :: f_alts f)).

Definition push (r : re) (f : frame) : frame :=
  Frame (f_alts f) (r :: f_cur f).

(** The characters that are special outside a bracket expression in the
    extended grammar: [. [ \ ( ) * + ? { | ^ $]. *)
Definition is_special (c : ascii) : bool :=
  existsb (Ascii.eqb c) (list_ascii_of_string ".[\()*+?{|^$").

(** A duplication symbol applies to the piece before it; with no piece
    before it, or after an anchor, the pattern is rejected. *)
Definition quantify (q : re -> re) (f : frame) : option frame :=
  match f_cur f with
  | [] | Bol :: _ | Eol :: _ => None
  | r :: rs => Some (Frame (f_alts f) (q r :: rs))
  end.

Definition class_of_name (name : string) : option cclass :=
  if String.eqb name "alnum" then Some c_alnum
  else if String.eqb name "alpha" then Some c_alpha
  else if String.eqb name "blank" then Some c_blank
  else if String.eqb name "cntrl" then Some c_cntrl
  else if String.eqb name "digit" then Some c_digit
  else if String.eqb name "graph" then Some c_graph
  else if String.eqb name "lower" then Some c_lower
  else if String.eqb name "print" then Some c_print
  else if String.eqb name "punct" then Some c_punct
  else if String.eqb name "space" then Some c_space
  else if String.eqb name "upper" then Some c_upper
  else if String.eqb name "xdigit" then Some c_xdigit
  else None.

(** Ranges: [a-b] between two characters; a dash that is first, last or
    follows a range stands for itself. *)
Fixpoint resolve (raw : list braw) : option (list bitem) :=
  match raw with
  | [] => Some []
  | RChar a :: rest =>
      match rest with
      | RDash :: RChar b :: rest' =>
          if (code a <=? code b)%N
          then cons (BRange a b) <$> resolve rest'
          else None
      | _ => cons (BChar a) <$> resolve rest
      end
  | RDash :: rest => cons (BChar "-"%char) <$> resolve rest
  | RClass k :: rest => cons (BClass k) <$> resolve rest
  end.

Definition set_mode (m : mode) (st : pstate) : pstate :=
  PState (p_stack st) (p_top st) m.

Definition emit (r : re) (st : pstate) : pstate :=
  PState (p_stack st) (push r (p_top st)) MNormal.

(** Outside brackets: the twelve special characters have their meaning and
    every other character is ordinary and stands for itself, except NUL:
    the grammar describes patterns that are C strings, and libstdc++ refuses
    a pattern with a NUL character here ("Unexpected null character in
    regular expression"); so does the model. *)
Definition step_normal (st : pstate) (c : ascii) : option pstate :=
  if Ascii.eqb c Ascii.zero then None
  else if Ascii.eqb c "\" then Some (set_mode MEscape st)
  else if Ascii.eqb c "(" then
    Some (PState (p_top st :: p_stack st) (Frame [] []) MNormal)
  else if Ascii.eqb c ")" then
    match p_stack st with
    | [] => None
    | f :: fs => Some (PState fs (push (Group (close (p_top st))) f) MNormal)
    end
  else if Ascii.eqb c "|" then
    Some (PState (p_stack st)
                 (Frame (seq_of (rev (f_cur (p_top st))) :: f_alts (p_top st)) [])
                 MNormal)
  else if Ascii.eqb c "*" then
    (fun f => PState (p_stack st) f MNormal) <$> quantify Star (p_top st)
  else if Ascii.eqb c "+" then
    (fun f => PState (p_stack st) f MNormal) <$> quantify Plus (p_top st)
  else if Ascii.eqb c "?" then
    (fun f => PState (p_stack st) f MNormal) <$> quantify Opt (p_top st)
  else if Ascii.eqb c "{" then None   (* interval expressions: not modelled *)
  else if Ascii.eqb c "[" then Some (set_mode MBracketOpen st)
  else if Ascii.eqb c "." then Some (emit Any st)
  else if Ascii.eqb c "^" then Some (emit Bol st)
  else if Ascii.eqb c "$" then Some (emit Eol st)
  else Some (emit (Lit c) st).

(** Inside a bracket expression the backslash and the other special
    characters stand for themselves; [[] followed by [:] opens a character
    class, and []] closes the expression unless it comes first. *)
Definition step_bracket (st : pstate) (neg first : bool) (raw : list braw)
    (c : ascii) : option pstate :=
  if Ascii.eqb c "]" && negb first then
    (fun items => emit (Bracket neg items) st) <$> resolve (rev raw)
  else if Ascii.eqb c "[" then Some (set_mode (MBracketNested neg raw) st)
  else if Ascii.eqb c "-" then Some (set_mode (MBracket neg false (RDash :: raw)) st)
  else Some (set_mode (MBracket neg false (RChar c :: raw)) st).

Definition step (st : pstate) (c : ascii) : option pstate :=
  match p_mode st with
  | MNormal => step_normal st c
  | MEscape => if is_special c then Some (emit (Lit c) st) else None
  | MBracketOpen =>
      if Ascii.eqb c "^" then Some (set_mode (MBracket true true []) st)
      else step_bracket st false true [] c
  | MBracket neg first raw => step_bracket st neg first raw c
  | MBracketNested neg raw =>
      if Ascii.eqb c ":" then Some (set_mode (MClass neg raw []) st)
      else if Ascii.eqb c "." || Ascii.eqb c "=" then None (* not modelled *)
      else step_bracket st neg false (RChar "["%char :: raw) c
  | MClass neg raw name =>
      if Ascii.eqb c ":" then Some (set_mode (MClassEnd neg raw name) st)
      else Some (set_mode (MClass neg raw (c :: name)) st)
  | MClassEnd neg raw name =>
      if Ascii.eqb c "]" then
        (fun k => set_mode (MBracket neg false (RClass k :: raw)) st)
          <$> class_of_name (string_of_list_ascii (rev name))
      else None
  end.

Fixpoint scan (st : pstate) (pat : str) : option pstate :=
  match pat with
  | [] => Some st
  | c :: pat' => match step st c with
                 | Some st' => scan st' pat'
                 | None => None
                 end
  end.

Definition finish (st : pstate) : option re :=
  match p_mode st, p_stack st with
  | MNormal, [] => Some (close (p_top st))
  | _, _ => None
  end.

(** [std::regex(pat, extended)] and [std::regex(pat, extended | icase)];
    [None] stands for the constructor throwing [std::regex_error].  The
    model also answers [None] to what it leaves out: interval expressions
    [{m,n}], collating symbols and equivalence classes, and the forms POSIX
    leaves undefined (a backslash before an ordinary character, a
    duplication symbol with nothing to repeat, a closing parenthesis with
    none open).  None of these occurs in a pattern of this file. *)
Definition compile_extended (icase : bool) (pat : str) : option regex :=
  st ← scan (PState [] (Frame [] []) MNormal) pat;
  r ← finish st;
  Some (Regex r icase).

(** *** Matching

    [ends r bol s] lists what is left of [s] after each way of matching [r]
    at the front of [s]; [bol] tells whether the front of [s] is a place
    where [^] matches (the beginning of the searched text). *)

Section Matching.
Variable icase : bool.

(** [regex_traits::translate] / [translate_nocase] *)
Definition translate (c : ascii) : ascii := if icase then tolower c else c.

Definition isctype (k : cclass) (c : ascii) : bool :=
  match k with
  | c_alnum => isalnum c
  | c_alpha => isalpha c
  | c_blank => isblank c
  | c_cntrl => iscntrl c
  | c_digit => isdigit c
  | c_graph => isgraph c
  | c_lower => if icase then isalpha c else islower c
  | c_print => isprint c
  | c_punct => ispunct c
  | c_space => isspace c
  | c_upper => if icase then isalpha c else isupper c
  | c_xdigit => isxdigit c
  end.

Definition item_match (c : ascii) (it : bitem) : bool :=
  match it with
  | BChar l => Ascii.eqb (translate l) (translate c)
  | BRange lo hi =>
      if icase
      then in_range (code lo) (code hi) (code (tolower c))
           || in_range (code lo) (code hi) (code (toupper c))
      else in_range (code lo) (code hi) (code c)
  | BClass k => isctype k c
  end.

(** Which single character an expression that consumes exactly one
    character accepts.  In the POSIX grammars a period matches any
    character except NUL. *)
Definition char_match (r : re) (c : ascii) : bool :=
  match r with
  | Lit l => Ascii.eqb (translate l) (translate c)
  | Any => negb (Ascii.eqb (translate c) (translate Ascii.zero))
  | Bracket neg items => xorb neg (existsb (item_match c) items)
  | _ => false
  end.

(** Zero or more rounds of [one]; a round that consumes nothing is not
    repeated.  Every round shortens the text, so [length s] rounds of
    fuel are enough. *)
Fixpoint star_ends (one : bool -> str -> list str) (fuel : nat)
    (bol : bool) (s : str) : list str :=
  s :: match fuel with
       | O => []
       | S fuel' =>
           flat_map (fun s1 => if (length s1 <? length s)%nat
                               then star_ends one fuel' false s1
                               else [])
                    (one bol s)
       end.

Fixpoint ends (r : re) (bol : bool) (s : str) : list str :=
  match r with
  | Eps => [s]
  | Lit _ | Any | Bracket _ _ =>
      match s with
      | c :: s' => if char_match r c then [s'] else []
      | [] => []
      end
  | Bol => if bol then [s] else []
  | Eol => match s with [] => [s] | _ :: _ => [] end
  | Group r1 => ends r1 bol s
  | Cat r1 r2 =>
      flat_map (fun s1 => ends r2 (bol && (length s1 =? length s)%nat) s1)
               (ends r1 bol s)
  | Alt r1 r2 => ends r1 bol s ++ ends r2 bol s
  | Star r1 => star_ends (ends r1) (length s) bol s
  | Plus r1 =>
      flat_map (fun s1 => star_ends (ends r1) (length s1)
                            (bol && (length s1 =? length s)%nat) s1)
               (ends r1 bol s)
  | Opt r1 => s :: ends r1 bol s
  end.

(** The match chosen at one starting position: the longest one, that is
    the shortest remainder. *)
Fixpoint shortest (l : list str) : option str :=
  match l with
  | [] => None
  | s :: l' => match shortest l' with
               | Some s' => if (length s' <? length s)%nat
                            then Some s' else Some s
               | None => Some s
               end
  end.

(** One [regex_search] over [s]: the first position where [r] matches.
    The result is the text before the match ([prefix()]), the match
    itself ([m[0]]) and the text after it ([suffix()]). *)
Fixpoint search_match (r : re) (bol : bool) (s : str)
    : option (str * str * str) :=
  match shortest (ends r bol s) with
  | Some rest => Some ([], take (length s - length rest) s, rest)
  | None =>
      match s with
      | [] => None
      | c :: s' =>
          (fun '(p, m, t) => (c :: p, m, t)) <$> search_match r false s'
      end
  end.

(** The same with [match_not_null | match_continuous]: a non-empty match
    at the front of [s] only. *)
Definition continue_match (r : re) (bol : bool) (s : str)
    : option (str * str) :=
  (fun rest => (take (length s - length rest) s, rest))
    <$> shortest (filter (fun s1 => (length s1 < length s)%nat) (ends r bol s)).

(** [std::regex_iterator::operator++], repeated until the end iterator is
    reached, from the text [s] left after a match: the further matches,
    each with the text between the end of the match before it and its own
    start, and what is left after the last match.  [prev_empty] tells that
    the match before was empty; [prev_avail] that [match_prev_avail] has
    been set, which the first ordinary search of an increment does.  Two
    rounds in a row consume at least one character, so
    [2 * length s + 3] rounds of fuel are enough. *)
Fixpoint iterate (fuel : nat) (r : re) (prev_avail prev_empty : bool)
    (s : str) : list (str * str) * str :=
  match fuel with
  | O => ([], s)
  | S fuel' =>
      (* [_M_flags |= match_prev_avail; regex_search(start, end, ...)] *)
      let ordinary (skipped : str) (s0 : str) :=
        match search_match r false s0 with
        | None => ([], skipped ++ s0)
        | Some (p, m, t) =>
            let '(ms, final) :=
              iterate fuel' r true (bool_decide (m = [])) t in
            ((skipped ++ p, m) :: ms, final)
        end in
      if prev_empty then
        match s with
        | [] => ([], [])
        | c :: s' =>
            match continue_match r (negb prev_avail) s with
            | Some (m, t) =>
                let '(ms, final) := iterate fuel' r prev_avail false t in
                (([], m) :: ms, final)
            | None => ordinary [c] s'
            end
        end
      else ordinary [] s
  end.

End Matching.

(** [std::regex_search(text, matches, regex)]; [matches.size()] afterwards
    is 0 when nothing matched and [1 + mark_count()] otherwise. *)
Definition regex_search (rx : regex) (text : str) : bool :=
  bool_decide (search_match (rx_icase rx) (rx_ast rx) true text <> None).

Definition match_results_size (rx : regex) (text : str) : nat :=
  if regex_search rx text then S (mark_count (rx_ast rx)) else O.

(** [std::sregex_iterator(text.begin(), text.end(), regex)] up to the end
    iterator: the constructor runs one [regex_search] over the text, every
    increment continues after the match before.  The result lists, for
    every match, its [prefix()] and the match itself, and gives the
    [suffix()] of the last match (the whole text when there is none). *)
Definition regex_matches (rx : regex) (text : str) : list (str * str) * str :=
  match search_match (rx_icase rx) (rx_ast rx) true text with
  | None => ([], text)
  | Some (p, m, t) =>
      let '(ms, final) :=
        iterate (rx_icase rx) (2 * length t + 3) (rx_ast rx) false
                (bool_decide (m = [])) t in
      ((p, m) :: ms, final)
  end.

(** Replacement formats (the default ECMAScript rules): [$&] is the match
    and [$$] a dollar sign; the forms that name the prefix, the suffix or a
    sub-expression are not modelled. *)
Inductive fmt_item :=
| FChar (c : ascii)
| FMatch.

Fixpoint parse_format (fmt : str) : option (list fmt_item) :=
  match fmt with
  | [] => Some []
  | c :: fmt' =>
      if Ascii.eqb c "$" then
        match fmt' with
        | [] => Some [FChar c]
        | d :: fmt'' =>
            if Ascii.eqb d "&" then cons FMatch <$> parse_format fmt''
            else if Ascii.eqb d "$" then cons (FChar d) <$> parse_format fmt''
            else if Ascii.eqb d "`" || Ascii.eqb d "'" || isdigit d then None
            else cons (FChar c) <$> parse_format fmt'
        end
      else cons (FChar c) <$> parse_format fmt'
  end.

Definition format (fmt : list fmt_item) (m : str) : str :=
  flat_map (fun it => match it with FChar c => [c] | FMatch => m end) fmt.

(** [std::regex_replace(text, regex, fmt)]: every match is replaced by the
    expanded format, the text between matches is copied. *)
Definition regex_replace (text : str) (rx : regex) (fmt : list fmt_item) : str :=
  let '(ms, final) := regex_matches rx text in
  flat_map (fun '(p, m) => p ++ format fmt m) ms ++ final.

End StdRegex.

(** ** [settingswindow.cpp]: the script settings search *)

Module LuaUi.
Import StdRegex.

(** Modelled from the spec: [LuaUi::ScriptSettingsPage] is declared outside
    [settingswindow.cpp].  The specification's SearchableRecord has a display
    name and a search-hint text; these are the two fields that
    [renderScriptSettings] reads, [page.mName] and [page.mSearchHints], both
    passed as [const std::string&].  The record's index is the position [i]
    at which [LuaUi::scriptSettingsPageAt(i)] returns it. *)
Record ScriptSettingsPage := {
  mName : str;
  mSearchHints : str
}.

End LuaUi.

Module SettingsWindow.
Import StdRegex.

(** Turns a pattern that compiles into the compiled object. *)
Definition compiled (o : option regex) : regex :=
  default (Regex Eps false) o.

(** [static const std::regex specialChars(R"r([\^\.\[\$\(\)\|\*\+\?\{])r",
                                          std::regex_constants::extended);] *)
Definition specialChars_pattern : str :=
  list_ascii_of_string "[\^\.\[\$\(\)\|\*\+\?\{]".

Definition specialChars : regex :=
  Eval vm_compute in compiled (compile_extended false specialChars_pattern).

(** The format [R"(\$&)"] of [escapeRegex]. *)
Definition escape_format : list fmt_item :=
  Eval vm_compute in default [] (parse_format (list_ascii_of_string "\$&")).

(** [escapeRegex]: [return std::regex_replace(str, specialChars, R"(\$&)");] *)
Definition escapeRegex (s : str) : str :=
  regex_replace s specialChars escape_format.

(** [static const std::regex wordsRegex(R"([^[:space:]]+)",
                                        std::regex_constants::extended);] *)
Definition wordsRegex_pattern : str := list_ascii_of_string "[^[:space:]]+".

Definition wordsRegex : regex :=
  Eval vm_compute in compiled (compile_extended false wordsRegex_pattern).

(** The words the iterator of [wordSearch] visits:
    [query.substr(it->position(), it->length())] for each match. *)
Definition words (query : str) : list str :=
  map snd (fst (regex_matches wordsRegex query)).

(** The loop of [wordSearch] over the words. *)
Fixpoint join_escaped (first : bool) (ws : list str) : str :=
  match ws with
  | [] => []
  | w :: ws' =>
      (if first then [] else ["|"%char]) ++ escapeRegex w
        ++ join_escaped false ws'
  end.

(** The pattern text [wordSearch] hands to [std::regex]. *)
Definition searchRegex_text (query : str) : str :=
  let searchRegex := "("%char :: join_escaped true (words query) ++ [")"%char] in
  (* query had only whitespace characters *)
  if bool_decide (searchRegex = list_ascii_of_string "()")
  then list_ascii_of_string "^(.*)$"
  else searchRegex.

(** [wordSearch]: [return std::regex(searchRegex, extended | icase);] *)
Definition wordSearch (query : str) : option regex :=
  compile_extended true (searchRegex_text query).

(** [weightedSearch]: [static_cast<double>(matches.size())] after one
    [std::regex_search].  The count is a small natural number, which
    [double] represents exactly: the model keeps it in [Z].  (The negation
    of a zero count is the [double] -0.0, which compares equal to 0.0, as
    [- 0] and [0] do here.) *)
Definition weightedSearch (rx : regex) (text : str) : Z :=
  Z.of_nat (match_results_size rx text).

(** The local [struct WeightedPage] of [renderScriptSettings]. *)
Record WeightedPage := {
  mIndex : nat;
  mName : str;
  mNameWeight : Z;
  mHintWeight : Z
}.

(** [std::string::operator<]: lexicographic, characters compared as
    [unsigned char]. *)
Fixpoint str_ltb (a b : str) : bool :=
  match a, b with
  | _, [] => false
  | [], _ :: _ => true
  | x :: a', y :: b' =>
      (code x <? code y)%N || ((code x =? code y)%N && str_ltb a' b')
  end.

(** [WeightedPage::tie]: [std::tie(mNameWeight, mHintWeight, mName)]. *)
Definition tie (w : WeightedPage) : Z * Z * str :=
  (mNameWeight w, mHintWeight w, mName w).

(** [operator<] of [std::tuple]: the first components decide unless neither
    is less than the other, then the second ones, then the third. *)
Definition tuple_ltb (a b : Z * Z * str) : bool :=
  let '(a0, a1, a2) := a in
  let '(b0, b1, b2) := b in
  (a0 <? b0)
  || (negb (b0 <? a0)
      && ((a1 <? b1) || (negb (b1 <? a1) && str_ltb a2 b2))).

(** [WeightedPage::operator<]: [return tie() < rhs.tie();] *)
Definition wp_ltb (a b : WeightedPage) : bool := tuple_ltb (tie a) (tie b).

(** "[a] may stand before [b]" for a sort by [operator<]. *)
Definition wp_le (a b : WeightedPage) : Prop := wp_ltb b a = false.

#[global] Instance wp_le_dec (a b : WeightedPage) : Decision (wp_le a b).
Proof. unfold wp_le. apply _. Defined.

(** [std::sort(weightedPages.begin(), weightedPages.end())].  The standard
    fixes the result up to the order of elements that compare equivalent;
    the model sorts by merging. *)
Definition std_sort (l : list WeightedPage) : list WeightedPage :=
  merge_sort wp_le l.

(** The loop over [LuaUi::scriptSettingsPageAt(i)], from index [i] on. *)
Fixpoint weighPages (searchRegex : regex) (i : nat)
    (pages : list LuaUi.ScriptSettingsPage) : list WeightedPage :=
  match pages with
  | [] => []
  | page :: pages' =>
      let nameWeight := weightedSearch searchRegex (LuaUi.mName page) in
      let hintWeight := weightedSearch searchRegex (LuaUi.mSearchHints page) in
      (if 0 <? nameWeight + hintWeight
       then [Build_WeightedPage i (LuaUi.mName page) (- nameWeight) (- hintWeight)]
       else [])
      ++ weighPages searchRegex (S i) pages'
  end.

(** The sorted [weightedPages] for the caption of [mScriptFilter]. *)
Definition rankedPages (query : str) (pages : list LuaUi.ScriptSettingsPage)
    : option (list WeightedPage) :=
  searchRegex ← wordSearch query;
  Some (std_sort (weighPages searchRegex 0 pages)).

(** [renderScriptSettings]: the items added to [mScriptList], in order:
    [mScriptList->addItem(weightedPage.mName, weightedPage.mIndex)]. *)
Definition renderScriptSettings (query : str)
    (pages : list LuaUi.ScriptSettingsPage) : option (list (str * nat)) :=
  map (fun w => (mName w, mIndex w)) <$> rankedPages query pages.

End SettingsWindow.

(** ** The specification's wording, for comparison with the code *)

Module Spec.
Import StdRegex SettingsWindow.

(** A string literal as a [std::string]. *)
Definition text (s : string) : str := list_ascii_of_string s.

(** The eleven characters the specification lists as the escaped set:
    [^ . [ $ ( ) | * + ? {]. *)
Definition listed_chars : str := text "^.[$()|*+?{".

Definition is_listed (c : ascii) : bool := existsb (Ascii.eqb c) listed_chars.

(** Escaping as the specification words it: a backslash before every
    listed character, every other character unchanged. *)
Definition escape_listed (token : str) : str :=
  flat_map (fun c => if is_listed c then ["\"%char; c] else [c]) token.

(** Escaping with the backslash added to the set, which makes it the set
    of the grammar's special characters. *)
Definition escape_special (token : str) : str :=
  flat_map (fun c => if is_special c then ["\"%char; c] else [c]) token.

(** The first word of a text that starts with one, and what follows it. *)
Fixpoint word_at (s : str) : str :=
  match s with
  | c :: s' => if isspace c then [] else c :: word_at s'
  | [] => []
  end.

Fixpoint after_word (s : str) : str :=
  match s with
  | c :: s' => if isspace c then s else after_word s'
  | [] => []
  end.

(** Tokenizing: the maximal runs of characters that are not whitespace. *)
Fixpoint split_ws (s : str) : list str :=
  match s with
  | [] => []
  | c :: s' =>
      if isspace c then split_ws s'
      else match s' with
           | [] => [[c]]
           | d :: _ =>
               if isspace d then [c] :: split_ws s'
               else match split_ws s' with
                    | w :: ws => (c :: w) :: ws
                    | [] => [[c]]
                    end
           end
  end.

(** A text in which every character accepted by [P] is replaced by the
    format expanded on it. *)
Definition replace_each (P : ascii -> bool) (fmt : list fmt_item) (s : str) : str :=
  flat_map (fun c => if P c then format fmt [c] else [c]) s.

(** Tokens joined by the alternation character. *)
Fixpoint join_alt (ws : list str) : str :=
  match ws with
  | [] => []
  | [w] => w
  | w :: ws' => w ++ "|"%char :: join_alt ws'
  end.

(** A token as a pattern: its characters, each standing for itself. *)
Definition literal (token : str) : re := seq_of (map Lit token).

(** The match-all sentinel. *)
Definition sentinel_text : str := text "^(.*)$".
Definition sentinel : regex :=
  Regex (Cat (Cat Bol (Group (Star Any))) Eol) true.

(** The pattern the specification describes for a query. *)
Definition pattern_text (query : str) : str :=
  match split_ws query with
  | [] => sentinel_text
  | ws => "("%char :: join_alt (map escape_special ws) ++ [")"%char]
  end.

Definition pattern (query : str) : regex :=
  match split_ws query with
  | [] => sentinel
  | ws => Regex (Group (alt_of (map literal ws))) true
  end.

(** The text holds a NUL character. *)
Definition has_nul (s : str) : bool :=
  existsb (fun c => Ascii.eqb c Ascii.zero) s.

Definition nul_free (s : str) : Prop := has_nul s = false.

Definition page_nul_free (p : LuaUi.ScriptSettingsPage) : Prop :=
  nul_free (LuaUi.mName p) /\ nul_free (LuaUi.mSearchHints p).

(** [a <= b] on strings, lexicographically by character code. *)
Fixpoint str_le (a b : str) : Prop :=
  match a, b with
  | [], _ => True
  | _ :: _, [] => False
  | x :: a', y :: b' =>
      (code x < code y)%N \/ (code x = code y /\ str_le a' b')
  end.

(** The ranking order: ascending by the tuple
    (negated name-score, negated hint-score, name). *)
Definition tuple_le (a b : WeightedPage) : Prop :=
  mNameWeight a < mNameWeight b
  \/ (mNameWeight a = mNameWeight b
      /\ (mHintWeight a < mHintWeight b
          \/ (mHintWeight a = mHintWeight b /\ str_le (mName a) (mName b)))).

(** Every candidate with its two scores, negated as the code stores them. *)
Definition scored (rx : regex) (pages : list LuaUi.ScriptSettingsPage)
    : list WeightedPage :=
  imap (fun i page =>
          Build_WeightedPage i (LuaUi.mName page)
            (- weightedSearch rx (LuaUi.mName page))
            (- weightedSearch rx (LuaUi.mSearchHints page)))
       pages.

(** The combined score of a candidate is not zero. *)
Definition scores_nonzero (w : WeightedPage) : Prop :=
  (- mNameWeight w) + (- mHintWeight w) <> 0.

#[global] Instance scores_nonzero_dec (w : WeightedPage) :
  Decision (scores_nonzero w).
Proof. unfold scores_nonzero. apply _. Defined.

(** The list a result is read as: (name, index) in rank order. *)
Definition listing (ws : list WeightedPage) : list (str * nat) :=
  map (fun w => (mName w, mIndex w)) ws.

Definition page (name hint : string) : LuaUi.ScriptSettingsPage :=
  LuaUi.Build_ScriptSettingsPage (text name) (text hint).

End Spec.

(** ** [scenetooltexturebrush.cpp]: the two slots that change the history *)

Module BrushEvents.
Import BrushHistory.

(** A call of one of the slots of [SceneToolTextureBrush] that write
    [mBrushHistory]: [updateBrushHistory (brushTexture)] or
    [clicked (index)] with [index.column()] and [index.row()]. *)
Inductive event :=
| Use (brushTexture : string)
| Click (column row : Z).

(** The history after one call; [None] when [clicked] indexes outside the
    vector. *)
Definition step (h : history) (e : event) : option history :=
  match e with
  | Use brushTexture => Some (updateBrushHistory brushTexture h)
  | Click column row => cr_history <$> clicked column row h
  end.

(** The history after a sequence of calls, first call first. *)
Fixpoint run (es : list event) (h : history) : option history :=
  match es with
  | [] => Some h
  | e :: es' => match step h e with
                | Some h' => run es' h'
                | None => None
                end
  end.

(** The identifiers a sequence of calls has passed to
    [updateBrushHistory]. *)
Definition used (es : list event) : list string :=
  flat_map (fun e => match e with Use x => [x] | Click _ _ => [] end) es.

End BrushEvents.

(** ** [settingswindow.cpp]: integers *)

Module CInt.

(** Conversion of an integer value to [int] (32 bits, two's complement). *)
Definition to_int (z : Z) : Z := (z + 2 ^ 31) mod 2 ^ 32 - 2 ^ 31.

(** Arithmetic in [size_t] (64 bits) wraps around. *)
Definition to_size_t (z : Z) : Z := z mod 2 ^ 64.

(** [MyGUI::ITEM_NONE], the largest [size_t]: "no item". *)
Definition ITEM_NONE : Z := 2 ^ 64 - 1.

(** [std::clamp(v, lo, hi)] *)
Definition clamp (v lo hi : Z) : Z :=
  if v <? lo then lo else if hi <? v then hi else v.

(** [MyGUI::utility::toString] of an integer: its decimal digits, after a
    minus sign when it is negative (what [operator<<] of a stream prints). *)
Definition toString (z : Z) : string := NilZero.string_of_int (Z.to_int z).

End CInt.

(** ** [settingswindow.cpp]: the resolution list *)

Module ResolutionList.
Import CInt.

(** [sortResolutions]: the comparison handed to [std::sort].
    [if (left.first == right.first) return left.second > right.second;
     return left.first > right.first;] *)
Definition sortResolutions (left right : Z * Z) : bool :=
  if left.1 =? right.1 then right.2 <? left.2 else right.1 <? left.1.

(** [getAspect].  [std::gcd] of two [int]s is the greatest common divisor
    of their absolute values, and [/] truncates.  The model computes in
    [Z]: it gives what the code gives for every width and height that are
    [int]s other than the least one, whose absolute value is no [int]. *)
Definition getAspect (x y : Z) : string :=
  let gcd := Z.gcd x y in
  if gcd =? 0 then ""%string
  else
    let xaspect := x ÷ gcd in
    let yaspect := y ÷ gcd in
    (* special case: 8 : 5 is usually referred to as 16:10 *)
    if (xaspect =? 8) && (yaspect =? 5) then "16 : 10"%string
    else (toString xaspect ++ " : " ++ toString yaspect)%string.

(** The text of one entry, as the constructor composes it:
    [str = toString(first) + " x " + toString(second);
     if (!aspect.empty()) str = str + " (" + aspect + ")";] *)
Definition resolutionItem (resolution : Z * Z) : string :=
  let str := (toString resolution.1 ++ " x " ++ toString resolution.2)%string in
  let aspect := getAspect resolution.1 resolution.2 in
  if String.eqb aspect "" then str
  else (str ++ " (" ++ aspect ++ ")")%string.

(** "[a] may stand before [b]" for a sort by [sortResolutions]. *)
Definition res_le (a b : Z * Z) : Prop := sortResolutions b a = false.

#[global] Instance res_le_dec (a b : Z * Z) : Decision (res_le a b).
Proof. unfold res_le. apply _. Defined.

(** [std::sort(resolutions.begin(), resolutions.end(), sortResolutions)];
    as for the pages, the model sorts by merging. *)
Definition sort_resolutions (resolutions : list (Z * Z)) : list (Z * Z) :=
  merge_sort res_le resolutions.

(** The loop that fills [mResolutionList]:
    [if (mResolutionList->findItemIndexWith(str) == MyGUI::ITEM_NONE)
         mResolutionList->addItem(str);] *)
Fixpoint addResolutions (resolutions : list (Z * Z)) (items : list string)
    : list string :=
  match resolutions with
  | [] => items
  | resolution :: rest =>
      let str := resolutionItem resolution in
      addResolutions rest
        (if bool_decide (str ∈ items) then items else items ++ [str])
  end.

(** "fill resolution list" in the constructor, from the display modes
    [(mode.w, mode.h)] that SDL reports and the items already in the list. *)
Definition fillResolutionList (modes : list (Z * Z)) (items : list string)
    : list string :=
  addResolutions (sort_resolutions modes) items.

End ResolutionList.

(** ** [settingswindow.cpp]: combo boxes, buttons and layout

    A handler that ends in [Settings::Manager::set...] is modelled by the
    value it stores, and the code that selects an index from a setting by a
    function of the value [Settings::Manager::get...] returns. *)

Module SettingsControls.
Import CInt.

(** [updateMaxLightsComboBox]: the index it selects for the value of
    "max lights". *)
Definition updateMaxLightsComboBox (maxLights : Z) : Z :=
  let min := 8 in
  let max := 32 in
  let increment := 8 in
  (* show increments of 8 in dropdown *)
  if (min <=? maxLights) && (maxLights <=? max)
     && (Z.rem maxLights increment =? 0)
  then to_size_t (maxLights ÷ increment - 1)
  else ITEM_NONE.

(** [onMaxLightsChanged]: [int count = 8 * (pos + 1);] with [pos] a
    [size_t]. *)
Definition onMaxLightsChanged (pos : Z) : Z :=
  to_int (to_size_t (8 * to_size_t (pos + 1))).

(** [onWaterTextureSizeChanged]: the value stored as "rtt size". *)
Definition onWaterTextureSizeChanged (pos : Z) : Z :=
  if pos =? 0 then 512
  else if pos =? 1 then 1024
  else if pos =? 2 then 2048
  else 0.

(** The constructor, for "rtt size": the last [setIndexSelected] it calls on
    [mWaterTextureSize], if it calls one.
    [if (waterTextureSize >= 512) mWaterTextureSize->setIndexSelected(0);
     if (waterTextureSize >= 1024) mWaterTextureSize->setIndexSelected(1);
     if (waterTextureSize >= 2048) mWaterTextureSize->setIndexSelected(2);] *)
Definition waterTextureSizeIndex (waterTextureSize : Z) : option Z :=
  let selected := if 512 <=? waterTextureSize then Some 0 else None in
  let selected := if 1024 <=? waterTextureSize then Some 1 else selected in
  let selected := if 2048 <=? waterTextureSize then Some 2 else selected in
  selected.

(** [onWaterReflectionDetailChanged]: [std::min<size_t>(pos, 5)], stored as
    "reflection detail". *)
Definition onWaterReflectionDetailChanged (pos : Z) : Z := Z.min pos 5.

(** The constructor, for "reflection detail":
    [std::clamp(Settings::Manager::getInt(...), 0, 5)] is the index
    selected. *)
Definition waterReflectionDetailIndex (detail : Z) : Z := clamp detail 0 5.

(** [onWaterRainRippleDetailChanged] and the constructor's index for "rain
    ripple detail", with 2 in the place of 5. *)
Definition onWaterRainRippleDetailChanged (pos : Z) : Z := Z.min pos 2.

Definition waterRainRippleDetailIndex (detail : Z) : Z := clamp detail 0 2.

(** What [onLanguageChanged] does to "preferred locales". *)
Inductive language_outcome :=
| LanguageUnchanged                        (* [pos == ITEM_NONE]: it returns *)
| LanguageThrows                           (* [languageNames->at(pos)] throws *)
| LanguageStored (locales : list string).  (* [setStringArray] *)

(** [onLanguageChanged], from the list kept as user data of the combo box
    ([languageNames]) and the stored list ([currentLocales]):
    [if (currentLocales.size() <= langPriority)
         currentLocales.resize(langPriority + 1, "en");
     currentLocales[langPriority] = languageNames->at(pos);] *)
Definition onLanguageChanged (langPriority : nat) (pos : Z)
    (languageNames currentLocales : list string) : language_outcome :=
  if pos =? ITEM_NONE then LanguageUnchanged
  else
    let currentLocales :=
      if (length currentLocales <=? langPriority)%nat
      then resize (langPriority + 1) "en"%string currentLocales
      else currentLocales in
    match languageNames !! Z.to_nat pos with
    | None => LanguageThrows
    | Some language => LanguageStored (<[langPriority := language]> currentLocales)
    end.

(** [onButtonToggled]: the new caption of the button and, for a
    "CheckButton", the value stored.  [on] and [off] are the two strings the
    window manager returns for "sOn" and "sOff". *)
Definition onButtonToggled (on off caption settingType : string)
    : string * option bool :=
  let '(caption', newState) :=
    if String.eqb caption on then (off, false) else (on, true) in
  (caption', if String.eqb settingType "CheckButton" then Some newState else None).

(** The two switches above the controls box. *)
Record switches := Switches {
  mKeyboardMode : bool;
  keyboardSelected : bool;      (* state of [mKeyboardSwitch] *)
  controllerSelected : bool;    (* state of [mControllerSwitch] *)
  rebuilt : nat                 (* calls of [updateControlsBox] so far *)
}.

(** The constructor: [mKeyboardMode(true)],
    [mKeyboardSwitch->setStateSelected(true);
     mControllerSwitch->setStateSelected(false);] *)
Definition switches_initial : switches := Switches true true false 0.

(** [onKeyboardSwitchClicked] *)
Definition onKeyboardSwitchClicked (s : switches) : switches :=
  if mKeyboardMode s then s
  else Switches true true false (S (rebuilt s)).

(** [onControllerSwitchClicked] *)
Definition onControllerSwitchClicked (s : switches) : switches :=
  if negb (mKeyboardMode s) then s
  else Switches false false true (S (rebuilt s)).

Inductive switch_click := KeyboardClick | ControllerClick.

Definition switch_step (s : switches) (c : switch_click) : switches :=
  match c with
  | KeyboardClick => onKeyboardSwitchClicked s
  | ControllerClick => onControllerSwitchClicked s
  end.

(** [layoutControlsBox]: the coordinates [(left, top, width, height)] given
    to the child at index [i], for a box of the given width.
    [widget->setCoord(0, i / noWidgetsInRow * h, w, h);] with [i] a
    [size_t]. *)
Definition childCoord (boxWidth : Z) (i : Z) : Z * Z * Z * Z :=
  let h := 18 in
  let w := boxWidth - 28 in
  let noWidgetsInRow := 2 in
  (0, to_int (to_size_t (i ÷ noWidgetsInRow * h)), w, h).

(** [layoutControlsBox]: the canvas size it sets, for a box of the given
    size with [childCount] children:
    [(getWidth(), std::max(totalH, getHeight()))]. *)
Definition canvasSize (boxWidth boxHeight childCount : Z) : Z * Z :=
  let h := 18 in
  let noWidgetsInRow := 2 in
  let totalH := to_int (to_size_t (childCount ÷ noWidgetsInRow * h)) in
  (boxWidth, Z.max totalH boxHeight).

End SettingsControls.

(** ** What a pattern built by [wordSearch] looks for *)

Module SearchSpec.
Import StdRegex Spec.

(** [w] is at the front of [s], up to the case of the letters A to Z. *)
Fixpoint prefix_ci (w s : str) : bool :=
  match w, s with
  | [], _ => true
  | _ :: _, [] => false
  | a :: w', c :: s' => Ascii.eqb (tolower a) (tolower c) && prefix_ci w' s'
  end.

(** What is left of [s] after the word, when the word is at its front. *)
Definition after_prefix (w s : str) : list str :=
  if prefix_ci w s then [drop (length w) s] else [].

(** [w] occurs somewhere in [s], up to case. *)
Fixpoint contains_ci (w s : str) : bool :=
  prefix_ci w s
  || match s with
     | [] => false
     | _ :: s' => contains_ci w s'
     end.

(** A text matches the words: it contains one of them, or, when there is no
    word, it holds no NUL character. *)
Definition matches_words (ws : list str) (text : str) : bool :=
  match ws with
  | [] => negb (has_nul text)
  | _ => existsb (fun w => contains_ci w text) ws
  end.

End SearchSpec.

(** ** [scenetooltexturebrush.cpp]: the brush shape and the history panel *)

Module BrushPanel.
Import BrushHistory.

(** [TextureBrushWindow::setBrushShape], from the checked state of the four
    buttons: the value of [mBrushShape] afterwards, which is emitted with
    [passBrushShape].
    [if(mButtonPoint->isChecked()) mBrushShape = 0;
     if(mButtonSquare->isChecked()) mBrushShape = 1;
     if(mButtonCircle->isChecked()) mBrushShape = 2;
     if(mButtonCustom->isChecked()) mBrushShape = 3;] *)
Definition setBrushShape (point square circle custom : bool) (mBrushShape : Z)
    : Z :=
  let mBrushShape := if point then 0 else mBrushShape in
  let mBrushShape := if square then 1 else mBrushShape in
  let mBrushShape := if circle then 2 else mBrushShape in
  if custom then 3 else mBrushShape.

(** [SceneToolTextureBrush::setButtonIcon], the slot connected to
    [passBrushShape]: the icon of the tool afterwards, by its resource
    name. *)
Definition setButtonIcon (brushShape : Z) (icon : string) : string :=
  let icon := if brushShape =? 0 then ":scenetoolbar/brush-point"%string else icon in
  let icon := if brushShape =? 1 then ":scenetoolbar/brush-square"%string else icon in
  let icon := if brushShape =? 2 then ":scenetoolbar/brush-circle"%string else icon in
  if brushShape =? 3 then ":scenetoolbar/brush-custom"%string else icon.

(** [mTable], a [QTableWidget] with two columns: the items of each row,
    [None] where a cell has no item. *)
Abbreviation table := (list (option string * option string)).

(** [QTableWidget::setRowCount]: rows are cut off at the end, or added
    without items. *)
Definition setRowCount (rows : nat) (t : table) : table :=
  resize rows (None, None) t.

(** [QTableWidget::setItem (row, column, item)]; nothing happens outside
    the table. *)
Definition setItem (row column : nat) (item : string) (t : table) : table :=
  match t !! row with
  | Some cells =>
      if (column =? 0)%nat then <[row := (Some item, cells.2)]> t
      else if (column =? 1)%nat then <[row := (cells.1, Some item)]> t
      else t
  | None => t
  end.

(** One round of the loop of [updatePanel], for row [i]; [data] gives the
    file name the land texture table holds for an identifier.
    [mTable->setItem (i, 1, new QTableWidgetItem (ltexTable.data(index)...));
     mTable->setItem (i, 0, new QTableWidgetItem (... mBrushHistory[i]));] *)
Definition updateRow (data : string -> string) (h : history) (t : table)
    (i : nat) : table :=
  match h !! i with
  | Some brushTexture => setItem i 0 brushTexture (setItem i 1 (data brushTexture) t)
  | None => t
  end.

(** [updatePanel]: [mTable->setRowCount (mBrushHistory.size());
    for (int i = mBrushHistory.size()-1; i >= 0; --i) ...] *)
Definition updatePanel (data : string -> string) (h : history) (t : table)
    : table :=
  fold_left (updateRow data h) (rev (seq 0 (length h)))
            (setRowCount (length h) t).

End BrushPanel.

(** ** [settingswindow.cpp]: texture filtering and the script list *)

Module TextureFiltering.

(** [textureMipmappingToStr]; the last case also logs a warning. *)
Definition textureMipmappingToStr (val : string) : string :=
  if String.eqb val "linear" then "#{SettingsMenu:TextureFilteringTrilinear}"%string
  else if String.eqb val "nearest" then "#{SettingsMenu:TextureFilteringBilinear}"%string
  else if String.eqb val "none" then "#{SettingsMenu:TextureFilteringDisabled}"%string
  else "#{SettingsMenu:TextureFilteringOther}"%string.

(** [onTextureFilteringChanged]: the setting "texture mipmap" afterwards,
    from the selected position and the value before. *)
Definition onTextureFilteringChanged (pos : Z) (mipmap : string) : string :=
  if pos =? 0 then "nearest"%string
  else if pos =? 1 then "linear"%string
  else mipmap.

End TextureFiltering.

Module ScriptList.
Import StdRegex.

(** [onScriptListSelection]: the value of [mCurrentPage] afterwards.  The
    items of [mScriptList] are those [renderScriptSettings] has added, each
    with the index of its page as item data; [index] is a [size_t].
    [mCurrentPage = -1;
     if (index < mScriptList->getItemCount())
         mCurrentPage = *mScriptList->getItemDataAt<size_t>(index);] *)
Definition onScriptListSelection (index : Z) (items : list (str * nat)) : Z :=
  let mCurrentPage := -1 in
  if index <? Z.of_nat (length items) then
    match items !! Z.to_nat index with
    | Some item => Z.of_nat item.2
    | None => mCurrentPage
    end
  else mCurrentPage.

End ScriptList.

(** ** Theorems: brush history *)

Section BrushHistoryFacts.
Import BrushHistory.

Lemma updateBrushHistory_length (x : string) (h : history) :
  (length h <= 5)%nat -> (length (updateBrushHistory x h) <= 5)%nat.
Proof.
  intros Hlen. unfold updateBrushHistory.
  destruct (5 <? Z.of_nat (length (x :: h))) eqn:E.
  - rewrite removelast_firstn_len, length_take. simpl. lia.
  - apply Z.ltb_ge in E. lia.
Qed.

Lemma updateBrushHistory_front (x : string) (h : history) :
  updateBrushHistory x h !! 0%nat = Some x.
Proof.
  unfold updateBrushHistory.
  destruct (5 <? Z.of_nat (length (x :: h))) eqn:E; [|reflexivity].
  apply Z.ltb_lt in E. destruct h as [|y h]; simpl in E; [lia|].
  reflexivity.
Qed.

Lemma uses_snoc (xs : list string) (x : string) (h : history) :
  uses (xs ++ [x]) h = updateBrushHistory x (uses xs h).
Proof. unfold uses. rewrite fold_left_app. reflexivity. Qed.

Lemma uses_length (xs : list string) (h : history) :
  (length h <= 5)%nat -> (length (uses xs h) <= 5)%nat.
Proof.
  revert h. induction xs as [|x xs IH]; intros h Hh; simpl; [exact Hh|].
  apply IH, updateBrushHistory_length, Hh.
Qed.

(** C3: from the constructor's one-element list, after any finite sequence
    of [updateBrushHistory] calls the history has at most 5 entries, and
    right after each call (the last of [xs ++ [x]]) the identifier just
    used is at position 0. *)
Theorem history_bounded_and_mru_first (xs : list string) (x : string) :
  (length (uses xs initial) <= 5)%nat
  /\ (length (uses (xs ++ [x]) initial) <= 5)%nat
  /\ uses (xs ++ [x]) initial !! 0%nat = Some x.
Proof.
  split; [|split].
  - apply uses_length. simpl. lia.
  - apply uses_length. simpl. lia.
  - rewrite uses_snoc. apply updateBrushHistory_front.
Qed.

(** C7: from a freshly constructed history, using A, B, C, D, E, F in this
    order leaves [F; E; D; C; B]: A (and the seed entry before it) have
    been dropped from the tail. *)
Theorem use_A_to_F :
  uses ["A"; "B"; "C"; "D"; "E"; "F"]%string initial
    = ["F"; "E"; "D"; "C"; "B"]%string
  /\ uses ["A"; "B"; "C"; "D"; "E"]%string initial
    = ["E"; "D"; "C"; "B"; "A"]%string.
Proof. split; reflexivity. Qed.

Lemma insert_swap_Permutation (t : list string) (n : nat) (a b : string) :
  t !! n = Some b -> b :: <[n := a]> t ≡ₚ a :: t.
Proof.
  revert n. induction t as [|y t IH]; intros [|n] Hn; simplify_eq/=.
  - apply Permutation_swap.
  - rewrite (Permutation_swap y b), (Permutation_swap y a).
    constructor. apply IH, Hn.
Qed.

(** C2 (as the code behaves): clicking row 2 of [A; B; C; D; E] exchanges
    the entries at positions 2 and 0, giving [C; B; A; D; E], passes on "C"
    and leaves the number of entries at 5. *)
Theorem clicked_row2_exchanges :
  clicked 0 2 ["A"; "B"; "C"; "D"; "E"]%string
    = Some (ClickedResult ["C"; "B"; "A"; "D"; "E"]%string (Some "C"%string))
  /\ (cr_history <$> clicked 1 2 ["A"; "B"; "C"; "D"; "E"]%string)
    = Some ["C"; "B"; "A"; "D"; "E"]%string
  /\ (length <$> (cr_history <$> clicked 0 2 ["A"; "B"; "C"; "D"; "E"]%string))
    = Some 5%nat.
Proof. repeat split. Qed.

(** C2 as the claim words it fails: the result is not [C; A; B; D; E]. *)
Theorem clicked_row2_is_not_move_to_front :
  (cr_history <$> clicked 0 2 ["A"; "B"; "C"; "D"; "E"]%string)
    <> Some ["C"; "A"; "B"; "D"; "E"]%string.
Proof. discriminate. Qed.

(** C10: for a row [p] inside the history, [clicked] exchanges the entries
    at positions [p] and 0 and nothing else: every other position keeps its
    entry, and the length and the multiset of entries are unchanged. *)
Theorem clicked_exchanges_only_two (column : Z) (p : nat) (h : history) :
  column = 0 \/ column = 1 ->
  (p < length h)%nat ->
  exists h' : history,
    clicked column (Z.of_nat p) h = Some (ClickedResult h' (h !! p))
    /\ length h' = length h
    /\ h' ≡ₚ h
    /\ h' !! 0%nat = h !! p
    /\ h' !! p = h !! 0%nat
    /\ forall j : nat, j <> 0%nat -> j <> p -> h' !! j = h !! j.
Proof.
  intros Hcol Hp.
  destruct (lookup_lt_is_Some_2 h p Hp) as [b Hb].
  destruct h as [|a t]; [simpl in Hp; lia|].
  exists (<[0%nat := b]> (<[p := a]> (a :: t))).
  assert (Hc : (column =? 0) || (column =? 1) = true).
  { destruct Hcol; subst; reflexivity. }
  split; [|split; [|split; [|split; [|split]]]].
  - unfold clicked. rewrite Hc.
    replace ((0 <=? Z.of_nat p) && (Z.of_nat p <? Z.of_nat (length (a :: t))))
      with true by (symmetry; apply andb_true_intro; split;
                    [apply Z.leb_le | apply Z.ltb_lt]; lia).
    rewrite Nat2Z.id, Hb. reflexivity.
  - rewrite !length_insert. reflexivity.
  - destruct p as [|n]; simpl in *.
    + simplify_eq. reflexivity.
    + apply insert_swap_Permutation, Hb.
  - rewrite Hb. destruct p; reflexivity.
  - destruct p as [|n]; simpl in *.
    + simplify_eq. reflexivity.
    + apply list_lookup_insert_eq. apply lookup_lt_is_Some. eauto.
  - intros j Hj0 Hjp.
    rewrite list_lookup_insert_ne by auto.
    rewrite list_lookup_insert_ne by auto. reflexivity.
Qed.

Lemma clicked_exchanges_only_two_witness :
  exists h' : history,
    clicked 1 (Z.of_nat 3) ["A"; "B"; "C"; "D"]%string
      = Some (ClickedResult h' (["A"; "B"; "C"; "D"]%string !! 3%nat))
    /\ length h' = length ["A"; "B"; "C"; "D"]%string
    /\ h' ≡ₚ ["A"; "B"; "C"; "D"]%string
    /\ h' !! 0%nat = ["A"; "B"; "C"; "D"]%string !! 3%nat
    /\ h' !! 3%nat = ["A"; "B"; "C"; "D"]%string !! 0%nat
    /\ forall j : nat, j <> 0%nat -> j <> 3%nat ->
         h' !! j = ["A"; "B"; "C"; "D"]%string !! j.
Proof.
  apply (clicked_exchanges_only_two 1 3 ["A"; "B"; "C"; "D"]%string).
  - right. reflexivity.
  - simpl. lia.
Defined.

End BrushHistoryFacts.

(** ** Theorems: compiling the search pattern *)

Section CompileFacts.
Import StdRegex SettingsWindow Spec.

Lemma scan_app (st : pstate) (a b : str) :
  scan st (a ++ b) = scan st a ≫= fun st' => scan st' b.
Proof.
  revert st. induction a as [|c a IH]; intros st; simpl; [reflexivity|].
  destruct (step st c); simpl; [apply IH | reflexivity].
Qed.

Lemma special_not_nul (c : ascii) :
  is_special c = true -> Ascii.eqb c Ascii.zero = false.
Proof.
  destruct c as [[] [] [] [] [] [] [] []]; intros H;
    solve [reflexivity | discriminate H].
Qed.

Lemma space_not_nul (c : ascii) :
  isspace c = true -> Ascii.eqb c Ascii.zero = false.
Proof.
  destruct c as [[] [] [] [] [] [] [] []]; intros H;
    solve [reflexivity | discriminate H].
Qed.

Lemma step_ordinary (stack : list frame) (f : frame) (c : ascii) :
  is_special c = false -> Ascii.eqb c Ascii.zero = false ->
  step (PState stack f MNormal) c = Some (PState stack (push (Lit c) f) MNormal).
Proof.
  unfold is_special. simpl. intros H Hz.
  repeat (apply orb_false_elim in H; destruct H as [? H]).
  unfold step, step_normal. simpl.
  repeat match goal with E : Ascii.eqb c _ = false |- _ => rewrite E; clear E end.
  reflexivity.
Qed.

Lemma step_escaped (stack : list frame) (f : frame) (c : ascii) :
  is_special c = true ->
  scan (PState stack f MNormal) ["\"%char; c]
    = Some (PState stack (push (Lit c) f) MNormal).
Proof.
  intros H. change (scan (PState stack f MNormal) ["\"%char; c])
    with (match step (PState stack f MEscape) c with
          | Some st' => scan st' []
          | None => None
          end).
  unfold step. simpl p_mode. rewrite H. reflexivity.
Qed.

(** Scanning an escaped token appends its characters, as literals, to the
    branch being read; a NUL character in the token stops the scan. *)
Lemma scan_escape_special (stack : list frame) (alts cur : list re) (w : str) :
  scan (PState stack (Frame alts cur) MNormal) (escape_special w)
    = if has_nul w then None
      else Some (PState stack (Frame alts (rev (map Lit w) ++ cur)) MNormal).
Proof.
  revert cur. induction w as [|c w IH]; intros cur; [reflexivity|].
  change (escape_special (c :: w))
    with ((if is_special c then ["\"%char; c] else [c]) ++ escape_special w).
  change (has_nul (c :: w)) with (Ascii.eqb c Ascii.zero || has_nul w).
  rewrite scan_app.
  destruct (is_special c) eqn:E.
  - rewrite (special_not_nul c E), (step_escaped _ _ _ E). simpl mbind.
    unfold push; simpl f_alts; simpl f_cur. rewrite IH.
    destruct (has_nul w); [reflexivity|].
    simpl. rewrite <- app_assoc. reflexivity.
  - change (scan (PState stack (Frame alts cur) MNormal) [c])
      with (match step (PState stack (Frame alts cur) MNormal) c with
            | Some st' => scan st' []
            | None => None
            end).
    destruct (Ascii.eqb c Ascii.zero) eqn:Hz.
    + apply Ascii.eqb_eq in Hz. subst c. reflexivity.
    + rewrite (step_ordinary _ _ _ E Hz). simpl scan. simpl mbind.
      unfold push; simpl f_alts; simpl f_cur. rewrite IH.
      destruct (has_nul w); [reflexivity|].
      simpl. rewrite <- app_assoc. reflexivity.
Qed.

(** Scanning the tokens joined by [|] leaves the frame holding one literal
    branch per token. *)
Lemma scan_join_alt (stack : list frame) (alts : list re) (w : str) (ws : list str) :
  if existsb has_nul (w :: ws)
  then scan (PState stack (Frame alts []) MNormal)
            (join_alt (map escape_special (w :: ws))) = None
  else exists f : frame,
    scan (PState stack (Frame alts []) MNormal)
         (join_alt (map escape_special (w :: ws)))
      = Some (PState stack f MNormal)
    /\ seq_of (rev (f_cur f)) :: f_alts f = rev (map literal (w :: ws)) ++ alts.
Proof.
  revert w alts. induction ws as [|w2 ws IH]; intros w alts.
  - change (existsb has_nul [w]) with (has_nul w || false).
    rewrite orb_false_r.
    change (join_alt (map escape_special [w])) with (escape_special w).
    rewrite scan_escape_special.
    destruct (has_nul w); [reflexivity|].
    exists (Frame alts (rev (map Lit w) ++ [])). split; [reflexivity|].
    simpl. rewrite app_nil_r, rev_involutive. reflexivity.
  - change (existsb has_nul (w :: w2 :: ws))
      with (has_nul w || existsb has_nul (w2 :: ws)).
    change (join_alt (map escape_special (w :: w2 :: ws)))
      with (escape_special w
              ++ "|"%char :: join_alt (map escape_special (w2 :: ws))).
    rewrite scan_app, scan_escape_special.
    destruct (has_nul w); [reflexivity|]. simpl mbind. rewrite app_nil_r.
    change (scan ?st ("|"%char :: ?rest))
      with (match step st "|"%char with
            | Some st' => scan st' rest
            | None => None
            end).
    unfold step, step_normal. simpl p_mode. simpl Ascii.eqb. cbv iota.
    simpl p_stack. simpl p_top. simpl f_cur. simpl f_alts.
    rewrite rev_involutive. fold (literal w).
    specialize (IH w2 (literal w :: alts)). rewrite orb_false_l.
    destruct (existsb has_nul (w2 :: ws)); [exact IH|].
    destruct IH as (f & Hscan & Hf). exists f. split; [exact Hscan|].
    rewrite Hf. simpl. rewrite <- !app_assoc. reflexivity.
Qed.

(** The pattern of a query with at least one token compiles to one marked
    group around the alternation of the tokens, each read literally, unless
    a token holds a NUL character. *)
Lemma compile_alternation (w : str) (ws : list str) (icase : bool) :
  compile_extended icase
      ("("%char :: join_alt (map escape_special (w :: ws)) ++ [")"%char])
    = if existsb has_nul (w :: ws) then None
      else Some (Regex (Group (alt_of (map literal (w :: ws)))) icase).
Proof.
  pose proof (scan_join_alt [Frame [] []] [] w ws) as H.
  unfold compile_extended.
  change (scan ?st ("("%char :: ?rest))
    with (match step st "("%char with
          | Some st' => scan st' rest
          | None => None
          end).
  unfold step, step_normal. simpl p_mode. simpl Ascii.eqb. cbv iota.
  simpl p_top. simpl p_stack.
  rewrite scan_app.
  destruct (existsb has_nul (w :: ws)).
  - rewrite H. reflexivity.
  - destruct H as (f & Hscan & Hf). rewrite Hscan. simpl.
    unfold close at 2. rewrite Hf, app_nil_r, rev_involutive.
    reflexivity.
Qed.

(** The two patterns and the format that the source spells out compile to
    the objects the functions use. *)
Lemma specialChars_compiles :
  compile_extended false specialChars_pattern = Some specialChars.
Proof. reflexivity. Qed.

Lemma wordsRegex_compiles :
  compile_extended false wordsRegex_pattern = Some wordsRegex.
Proof. reflexivity. Qed.

Lemma escape_format_parses :
  parse_format (text "\$&") = Some escape_format.
Proof. reflexivity. Qed.

Lemma compile_sentinel :
  compile_extended true sentinel_text = Some sentinel.
Proof. reflexivity. Qed.

Lemma mark_count_fold_Cat (rs : list re) (r : re) :
  Forall (fun x => mark_count x = 0%nat) rs -> mark_count r = 0%nat ->
  mark_count (fold_left Cat rs r) = 0%nat.
Proof.
  revert r. induction rs as [|x rs IH]; intros r Hrs Hr; simpl; [exact Hr|].
  inversion Hrs; subst. apply IH; [assumption|]. simpl. lia.
Qed.

Lemma mark_count_fold_Alt (rs : list re) (r : re) :
  Forall (fun x => mark_count x = 0%nat) rs -> mark_count r = 0%nat ->
  mark_count (fold_left Alt rs r) = 0%nat.
Proof.
  revert r. induction rs as [|x rs IH]; intros r Hrs Hr; simpl; [exact Hr|].
  inversion Hrs; subst. apply IH; [assumption|]. simpl. lia.
Qed.

Lemma mark_count_literal (w : str) : mark_count (literal w) = 0%nat.
Proof.
  unfold literal, seq_of. destruct w as [|c w]; [reflexivity|]. simpl map.
  apply mark_count_fold_Cat; [|reflexivity].
  apply Forall_forall. intros x Hx. apply list_elem_of_In, in_map_iff in Hx.
  destruct Hx as (d & <- & _). reflexivity.
Qed.

Lemma mark_count_alternation (ws : list str) :
  mark_count (alt_of (map literal ws)) = 0%nat.
Proof.
  unfold alt_of. destruct ws as [|w ws]; [reflexivity|]. simpl map.
  apply mark_count_fold_Alt; [|apply mark_count_literal].
  apply Forall_forall. intros x Hx. apply list_elem_of_In, in_map_iff in Hx.
  destruct Hx as (d & <- & _). apply mark_count_literal.
Qed.

Lemma mark_count_pattern (query : str) :
  mark_count (rx_ast (pattern query)) = 1%nat.
Proof.
  unfold pattern. destruct (split_ws query) as [|w ws]; [reflexivity|].
  simpl. f_equal. apply (mark_count_alternation (w :: ws)).
Qed.

End CompileFacts.

(** ** Theorems: [escapeRegex] and the words of a query *)

Section ReplaceFacts.
Import StdRegex SettingsWindow Spec.

(** The bracket expression of [specialChars] holds the grammar's twelve
    special characters: in it the backslashes stand for themselves. *)
Lemma specialChars_class (c : ascii) :
  char_match false (rx_ast specialChars) c = is_special c.
Proof. destruct c as [[] [] [] [] [] [] [] []]; reflexivity. Qed.

Lemma search_bracket (icase neg : bool) (items : list bitem) (bol : bool) (s : str) :
  search_match icase (Bracket neg items) bol s
  = match s with
    | [] => None
    | c :: s' =>
        if char_match icase (Bracket neg items) c then Some ([], [c], s')
        else (fun '(p, m, t) => (c :: p, m, t))
               <$> search_match icase (Bracket neg items) false s'
    end.
Proof.
  destruct s as [|c s']; [reflexivity|].
  cbn [search_match ends].
  destruct (char_match icase (Bracket neg items) c); [|reflexivity].
  cbn [shortest]. replace (length (c :: s') - length s')%nat with 1%nat
    by (simpl; lia).
  reflexivity.
Qed.

Section OneClass.
Variables (icase neg : bool) (items : list bitem) (fmt : list fmt_item).

Local Abbreviation r := (Bracket neg items).

Lemma replace_each_cons (c : ascii) (s : str) :
  replace_each (char_match icase r) fmt (c :: s)
  = (if char_match icase r c then format fmt [c] else [c])
      ++ replace_each (char_match icase r) fmt s.
Proof. reflexivity. Qed.

Lemma search_bracket_spec (s : str) (bol : bool) :
  match search_match icase r bol s with
  | None => replace_each (char_match icase r) fmt s = s
  | Some (p, m, t) =>
      exists c, m = [c] /\ char_match icase r c = true
                /\ s = p ++ c :: t
                /\ replace_each (char_match icase r) fmt p = p
  end.
Proof.
  revert bol. induction s as [|c s IH]; intros bol;
    rewrite search_bracket; [reflexivity|].
  destruct (char_match icase r c) eqn:E.
  - exists c. repeat split. exact E.
  - specialize (IH false).
    destruct (search_match icase r false s) as [[[p m] t]|];
      cbn [fmap option_fmap option_map].
    + destruct IH as (d & -> & Hd & -> & Hp). exists d.
      repeat split; [exact Hd|].
      change ((c :: p) ++ d :: t) with (c :: (p ++ d :: t)).
      rewrite replace_each_cons, E. cbn [app].
      f_equal. exact Hp.
    + rewrite replace_each_cons, E. cbn [app]. f_equal. exact IH.
Qed.

(** Replacing every match of a one-character class. *)
Lemma iterate_bracket_replace (fuel : nat) (s : str) (prev_avail : bool) :
  (length s < fuel)%nat ->
  flat_map (fun '(p, m) => p ++ format fmt m)
           (fst (iterate icase fuel r prev_avail false s))
    ++ snd (iterate icase fuel r prev_avail false s)
  = replace_each (char_match icase r) fmt s.
Proof.
  revert s prev_avail. induction fuel as [|fuel IH]; intros s pa Hlen; [lia|].
  cbn [iterate]. cbn [app].
  pose proof (search_bracket_spec s false) as Hs.
  destruct (search_match icase r false s) as [[[p m] t]|].
  - destruct Hs as (c & -> & Hc & -> & Hp).
    rewrite bool_decide_eq_false_2 by discriminate.
    assert (Ht : (length t < fuel)%nat).
    { rewrite length_app in Hlen. simpl in Hlen. lia. }
    specialize (IH t true Ht).
    destruct (iterate icase fuel r true false t) as [ms final].
    cbn [fst snd flat_map] in IH |- *. rewrite <- !app_assoc, IH.
    unfold replace_each in *. rewrite flat_map_app, Hp.
    cbn [flat_map]. rewrite Hc. reflexivity.
  - simpl. symmetry. exact Hs.
Qed.

End OneClass.

(** [escapeRegex] puts a backslash before each of the twelve special
    characters of the grammar and copies every other character. *)
Lemma escapeRegex_escape_special (token : str) :
  escapeRegex token = escape_special token.
Proof.
  unfold escapeRegex, regex_replace, regex_matches.
  assert (Hast : exists items, rx_ast specialChars = Bracket false items)
    by (eexists; reflexivity).
  destruct Hast as [items Hast]. rewrite Hast.
  change (rx_icase specialChars) with false.
  transitivity (replace_each (char_match false (Bracket false items))
                  escape_format token).
  - pose proof (search_bracket_spec false false items escape_format token true)
      as Hs.
    destruct (search_match false (Bracket false items) true token)
      as [[[p m] t]|]; [|symmetry; exact Hs].
    destruct Hs as (c & -> & Hc & -> & Hp).
    rewrite bool_decide_eq_false_2 by discriminate.
    pose proof (iterate_bracket_replace false false items escape_format
                  (2 * length t + 3) t false ltac:(lia)) as H.
    destruct (iterate false (2 * length t + 3) (Bracket false items)
                false false t) as [ms final].
    cbn [fst snd flat_map] in H |- *. rewrite <- !app_assoc, H.
    unfold replace_each in *. rewrite flat_map_app, Hp.
    cbn [flat_map]. rewrite Hc. reflexivity.
  - unfold escape_special, replace_each. apply flat_map_ext. intros c.
    rewrite <- Hast, specialChars_class. reflexivity.
Qed.

End ReplaceFacts.

Section WordsFacts.
Import StdRegex SettingsWindow Spec.

Local Abbreviation nonspace := (Bracket true [BClass c_space]).

Lemma nonspace_class (icase : bool) (c : ascii) :
  char_match icase nonspace c = negb (isspace c).
Proof. simpl. rewrite orb_false_r. reflexivity. Qed.

Lemma word_at_after_word (s : str) : s = word_at s ++ after_word s.
Proof.
  induction s as [|c s IH]; [reflexivity|]. simpl.
  destruct (isspace c); [reflexivity|]. simpl. f_equal. exact IH.
Qed.

Lemma after_word_length (s : str) : (length (after_word s) <= length s)%nat.
Proof.
  induction s as [|c s IH]; simpl; [lia|].
  destruct (isspace c); simpl; lia.
Qed.

Lemma split_ws_word (c : ascii) (s : str) :
  isspace c = false ->
  split_ws (c :: s) = (c :: word_at s) :: split_ws (after_word s).
Proof.
  revert c. induction s as [|d s IH]; intros c Hc.
  - simpl. rewrite Hc. reflexivity.
  - change (split_ws (c :: d :: s))
      with (if isspace c then split_ws (d :: s)
            else if isspace d then [c] :: split_ws (d :: s)
                 else match split_ws (d :: s) with
                      | w :: ws => (c :: w) :: ws
                      | [] => [[c]]
                      end).
    rewrite Hc. cbn [word_at after_word].
    destruct (isspace d) eqn:Hd; [reflexivity|].
    rewrite (IH d Hd). reflexivity.
Qed.

(** The longest run of [nonspace] from a position ends where the word
    ends. *)
Lemma star_nonspace (icase : bool) (fuel : nat) (s : str) (bol : bool) :
  (length s <= fuel)%nat ->
  shortest (star_ends (ends icase nonspace) fuel bol s) = Some (after_word s).
Proof.
  revert s bol. induction fuel as [|fuel IH]; intros s bol Hlen.
  - destruct s; [reflexivity | simpl in Hlen; lia].
  - destruct s as [|c s]; [reflexivity|].
    cbn [star_ends ends]. rewrite nonspace_class. cbn [after_word].
    destruct (isspace c); [reflexivity|].
    cbn [negb flat_map]. rewrite app_nil_r.
    replace (length s <? length (c :: s))%nat with true
      by (symmetry; apply Nat.ltb_lt; simpl; lia).
    cbn [shortest]. rewrite IH by (simpl in Hlen; lia).
    replace (length (after_word s) <? length (c :: s))%nat with true;
      [reflexivity|].
    symmetry. apply Nat.ltb_lt. pose proof (after_word_length s). simpl. lia.
Qed.

Lemma plus_nonspace (icase bol : bool) (s : str) :
  shortest (ends icase (Plus nonspace) bol s)
  = match s with
    | c :: s' => if isspace c then None else Some (after_word s')
    | [] => None
    end.
Proof.
  destruct s as [|c s]; [reflexivity|].
  cbn [ends]. rewrite nonspace_class.
  destruct (isspace c); [reflexivity|].
  cbn [negb flat_map]. rewrite app_nil_r. apply star_nonspace. lia.
Qed.

Lemma search_words_spec (icase : bool) (s : str) (bol : bool) :
  match search_match icase (Plus nonspace) bol s with
  | None => split_ws s = []
  | Some (p, m, t) =>
      m <> [] /\ split_ws s = m :: split_ws t /\ (length t < length s)%nat
  end.
Proof.
  revert bol. induction s as [|c s IH]; intros bol.
  - reflexivity.
  - cbn [search_match]. rewrite plus_nonspace.
    destruct (isspace c) eqn:Hc.
    + specialize (IH false).
      destruct (search_match icase (Plus nonspace) false s) as [[[p m] t]|];
        simpl; rewrite Hc.
      * destruct IH as (Hm & Hs & Ht). repeat split; auto.
      * exact IH.
    + pose proof (after_word_length s) as Hle.
      pose proof (word_at_after_word s) as Hs.
      assert (Htake : take (length (c :: s) - length (after_word s)) (c :: s)
                      = c :: word_at s).
      { replace (length (c :: s) - length (after_word s))%nat
          with (S (length (word_at s))).
        - simpl. f_equal. rewrite Hs at 2. apply take_app_length.
        - apply (f_equal length) in Hs. rewrite length_app in Hs. simpl. lia. }
      rewrite Htake. split; [discriminate|]. split.
      * apply split_ws_word, Hc.
      * simpl. lia.
Qed.

Lemma iterate_words (icase : bool) (fuel : nat) (s : str) (prev_avail : bool) :
  (length s < fuel)%nat ->
  map snd (fst (iterate icase fuel (Plus nonspace) prev_avail false s))
    = split_ws s.
Proof.
  revert s prev_avail. induction fuel as [|fuel IH]; intros s pa Hlen; [lia|].
  cbn [iterate]. cbn [app].
  pose proof (search_words_spec icase s false) as Hs.
  destruct (search_match icase (Plus nonspace) false s) as [[[p m] t]|].
  - destruct Hs as (Hm & -> & Ht).
    rewrite bool_decide_eq_false_2 by exact Hm.
    specialize (IH t true ltac:(lia)).
    destruct (iterate icase fuel (Plus nonspace) true false t) as [ms final].
    simpl in IH |- *. rewrite IH. reflexivity.
  - simpl. symmetry. exact Hs.
Qed.

(** The words [wordSearch] iterates over are the maximal runs of
    characters that are not whitespace. *)
Lemma words_split_ws (query : str) : words query = split_ws query.
Proof.
  unfold words, regex_matches.
  change (rx_ast wordsRegex) with (Plus nonspace).
  change (rx_icase wordsRegex) with false.
  pose proof (search_words_spec false query true) as Hs.
  destruct (search_match false (Plus nonspace) true query) as [[[p m] t]|];
    [|symmetry; exact Hs].
  destruct Hs as (Hm & -> & _).
  rewrite bool_decide_eq_false_2 by exact Hm.
  pose proof (iterate_words false (2 * length t + 3) t false ltac:(lia)) as H.
  destruct (iterate false (2 * length t + 3) (Plus nonspace) false false t)
    as [ms final].
  cbn [fst snd map] in H |- *. rewrite H. reflexivity.
Qed.

Lemma split_ws_head_nonempty (s : str) (w : str) (ws : list str) :
  split_ws s = w :: ws -> w <> [].
Proof.
  induction s as [|c s IH]; [discriminate|].
  destruct (isspace c) eqn:Hc.
  - simpl. rewrite Hc. exact IH.
  - rewrite (split_ws_word c s Hc). intros [= <- _]. discriminate.
Qed.

Lemma split_ws_spaces (s : str) :
  Forall (fun c => isspace c = true) s -> split_ws s = [].
Proof.
  induction 1 as [|c s Hc _ IH]; [reflexivity|].
  simpl. rewrite Hc. exact IH.
Qed.

End WordsFacts.

(** ** Theorems: [wordSearch] and [weightedSearch] *)

Section SearchFacts.
Import StdRegex SettingsWindow Spec.

Lemma join_alt_join_escaped (w : str) (ws : list str) :
  join_alt (map escape_special (w :: ws))
    = escape_special w ++ join_escaped false ws.
Proof.
  revert w. induction ws as [|w2 ws IH]; intros w.
  - simpl. rewrite app_nil_r. reflexivity.
  - change (join_alt (map escape_special (w :: w2 :: ws)))
      with (escape_special w
              ++ "|"%char :: join_alt (map escape_special (w2 :: ws))).
    rewrite IH. cbn [join_escaped]. rewrite escapeRegex_escape_special.
    reflexivity.
Qed.

Lemma join_escaped_first (ws : list str) :
  join_escaped true ws = join_alt (map escape_special ws).
Proof.
  destruct ws as [|w ws]; [reflexivity|].
  rewrite join_alt_join_escaped. cbn [join_escaped].
  rewrite escapeRegex_escape_special. reflexivity.
Qed.

Lemma escape_special_nonempty (w : str) : w <> [] -> escape_special w <> [].
Proof.
  destruct w as [|c w]; [congruence|]. intros _. unfold escape_special.
  simpl. destruct (is_special c); discriminate.
Qed.

(** The pattern text built by [wordSearch] is the one the specification
    describes: the sentinel when the query has no word, and otherwise the
    escaped words joined by [|] inside one pair of parentheses. *)
Lemma searchRegex_text_pattern_text (query : str) :
  searchRegex_text query = pattern_text query.
Proof.
  unfold searchRegex_text, pattern_text.
  rewrite words_split_ws, join_escaped_first.
  destruct (split_ws query) as [|w ws] eqn:Hws; [reflexivity|].
  rewrite bool_decide_eq_false_2; [reflexivity|].
  rewrite join_alt_join_escaped. intros H.
  apply (f_equal (@length ascii)) in H.
  cbn [length] in H. rewrite !length_app in H. simpl in H.
  apply (escape_special_nonempty w (split_ws_head_nonempty _ _ _ Hws)).
  apply length_zero_iff_nil. lia.
Qed.

Lemma has_nul_split_ws (s : str) : existsb has_nul (split_ws s) = has_nul s.
Proof.
  induction s as [|c s IH]; [reflexivity|].
  change (has_nul (c :: s)) with (Ascii.eqb c Ascii.zero || has_nul s).
  destruct (isspace c) eqn:Hc.
  - simpl. rewrite Hc, (space_not_nul c Hc). exact IH.
  - destruct s as [|d s].
    { simpl. rewrite Hc. simpl. rewrite !orb_false_r. reflexivity. }
    change (split_ws (c :: d :: s))
      with (if isspace c then split_ws (d :: s)
            else if isspace d then [c] :: split_ws (d :: s)
                 else match split_ws (d :: s) with
                      | w :: ws => (c :: w) :: ws
                      | [] => [[c]]
                      end).
    rewrite Hc, <- IH.
    assert (Hone : has_nul [c] = Ascii.eqb c Ascii.zero)
      by (unfold has_nul; simpl; apply orb_false_r).
    destruct (isspace d).
    { cbn [existsb]. rewrite Hone. reflexivity. }
    destruct (split_ws (d :: s)) as [|w ws]; cbn [existsb].
    + rewrite Hone. reflexivity.
    + change (has_nul (c :: w)) with (Ascii.eqb c Ascii.zero || has_nul w).
      rewrite orb_assoc. reflexivity.
Qed.

(** [wordSearch] returns the pattern of the specification, and throws only
    for a query that holds a NUL character. *)
Lemma wordSearch_pattern (query : str) :
  wordSearch query = if has_nul query then None else Some (pattern query).
Proof.
  unfold wordSearch. rewrite searchRegex_text_pattern_text.
  unfold pattern_text, pattern. rewrite <- has_nul_split_ws.
  destruct (split_ws query) as [|w ws].
  - apply compile_sentinel.
  - apply compile_alternation.
Qed.

Lemma spaces_nul_free (query : str) :
  Forall (fun c => isspace c = true) query -> has_nul query = false.
Proof.
  induction 1 as [|c s Hc _ IH]; [reflexivity|].
  change (has_nul (c :: s)) with (Ascii.eqb c Ascii.zero || has_nul s).
  rewrite (space_not_nul c Hc), IH. reflexivity.
Qed.

Lemma weightedSearch_pattern (query text : str) :
  weightedSearch (pattern query) text
    = if regex_search (pattern query) text then 2 else 0.
Proof.
  unfold weightedSearch, match_results_size.
  rewrite mark_count_pattern. destruct (regex_search _ _); reflexivity.
Qed.

Lemma weightedSearch_nonneg (rx : regex) (text : str) :
  0 <= weightedSearch rx text.
Proof. unfold weightedSearch. lia. Qed.

(** *** The sentinel *)

Lemma dot_class_icase (c : ascii) :
  char_match true Any c = negb (Ascii.eqb c Ascii.zero).
Proof. destruct c as [[] [] [] [] [] [] [] []]; reflexivity. Qed.

Lemma star_any_all (fuel : nat) (s : str) (bol : bool) :
  nul_free s -> (length s <= fuel)%nat ->
  In [] (star_ends (ends true Any) fuel bol s).
Proof.
  unfold nul_free. revert fuel bol.
  induction s as [|c s IH]; intros fuel bol Hs Hlen.
  - destruct fuel; left; reflexivity.
  - destruct fuel as [|fuel]; [simpl in Hlen; lia|].
    change (has_nul (c :: s)) with (Ascii.eqb c Ascii.zero || has_nul s) in Hs.
    apply orb_false_elim in Hs. destruct Hs as [Hc Hs].
    cbn [star_ends ends]. rewrite dot_class_icase, Hc.
    cbn [negb flat_map]. rewrite app_nil_r.
    replace (length s <? length (c :: s))%nat with true
      by (symmetry; apply Nat.ltb_lt; simpl; lia).
    right. apply IH; [exact Hs | simpl in Hlen; lia].
Qed.

Lemma shortest_In (l : list str) (x : str) : In x l -> shortest l <> None.
Proof.
  destruct l as [|y l]; [intros []|]. intros _. simpl.
  destruct (shortest l) as [z|]; [|discriminate].
  destruct (length z <? length y)%nat; discriminate.
Qed.

(** The sentinel matches every text that has no NUL character. *)
Lemma sentinel_matches (text : str) :
  nul_free text -> regex_search sentinel text = true.
Proof.
  intros Hs. unfold regex_search. apply bool_decide_eq_true_2.
  unfold sentinel. cbn [rx_ast rx_icase search_match].
  assert (Hin : In [] (ends true (Cat (Cat Bol (Group (Star Any))) Eol) true text)).
  { cbn [ends]. apply in_flat_map. exists []. split; [|left; reflexivity].
    apply in_flat_map. exists text. split; [left; reflexivity|].
    apply star_any_all; [exact Hs | lia]. }
  apply shortest_In in Hin.
  destruct text; cbn [search_match];
    (destruct (shortest _); [discriminate | contradiction]).
Qed.

End SearchFacts.

(** ** Theorems: ranking *)

Section RankFacts.
Import StdRegex SettingsWindow Spec.

Lemma str_ltb_le (a b : str) : str_ltb b a = false <-> str_le a b.
Proof.
  revert b. induction a as [|x a IH]; intros [|y b]; simpl.
  - tauto.
  - tauto.
  - split; [discriminate | tauto].
  - rewrite orb_false_iff, andb_false_iff, N.ltb_ge, N.eqb_neq, IH.
    split.
    + intros [Hle [Hne | Hle']]; [left; lia|].
      destruct (N.eq_dec (code x) (code y)); [right; tauto | left; lia].
    + intros [Hlt | [Heq Hle']]; [split; [lia | left; lia]|].
      split; [lia | right; exact Hle'].
Qed.

Lemma str_le_total (a b : str) : str_le a b \/ str_le b a.
Proof.
  revert b. induction a as [|x a IH]; intros [|y b]; simpl; try tauto.
  destruct (IH b); destruct (N.lt_trichotomy (code x) (code y)) as [|[|]];
    intuition lia.
Qed.

Lemma str_le_trans (a b c : str) : str_le a b -> str_le b c -> str_le a c.
Proof.
  revert b c. induction a as [|x a IH]; intros [|y b] [|z c]; simpl; try tauto.
  intros [Hxy | [Hxy Hab]] [Hyz | [Hyz Hbc]];
    try (left; lia).
  right. split; [lia | eapply IH; eassumption].
Qed.

(** [operator<] of [WeightedPage] orders by the tuple
    (negated name-score, negated hint-score, name). *)
Lemma wp_le_tuple_le (a b : WeightedPage) : wp_le a b <-> tuple_le a b.
Proof.
  unfold wp_le, wp_ltb, tuple_ltb, tie, tuple_le.
  rewrite orb_false_iff, andb_false_iff, orb_false_iff, andb_false_iff.
  rewrite !negb_false_iff, !Z.ltb_ge, !Z.ltb_lt, str_ltb_le.
  split.
  - intros [H1 [H2 | [H3 [H4 | H5]]]]; [left; exact H2 | |].
    + destruct (Z.eq_dec (mNameWeight a) (mNameWeight b));
        [right; split; [assumption | left; exact H4] | left; lia].
    + destruct (Z.eq_dec (mNameWeight a) (mNameWeight b)); [|left; lia].
      right. split; [assumption|].
      destruct (Z.eq_dec (mHintWeight a) (mHintWeight b)); [|left; lia].
      right. split; assumption.
  - intros [H1 | [H1 [H2 | [H2 H3]]]].
    + split; [lia | left; exact H1].
    + split; [lia | right; split; [lia | left; exact H2]].
    + split; [lia | right; split; [lia | right; exact H3]].
Qed.

#[local] Instance wp_le_total : Total wp_le.
Proof.
  intros a b. rewrite !wp_le_tuple_le. unfold tuple_le.
  destruct (str_le_total (mName a) (mName b));
    destruct (Z.lt_trichotomy (mNameWeight a) (mNameWeight b)) as [|[|]];
    destruct (Z.lt_trichotomy (mHintWeight a) (mHintWeight b)) as [|[|]];
    intuition lia.
Qed.

#[local] Instance wp_le_trans : Transitive wp_le.
Proof.
  intros a b c. rewrite !wp_le_tuple_le. unfold tuple_le.
  intros [H1 | [H1 [H2 | [H2 H3]]]] [K1 | [K1 [K2 | [K2 K3]]]];
    try (left; lia); try (right; split; [lia|]; left; lia).
  right. split; [lia|]. right. split; [lia|].
  eapply str_le_trans; eassumption.
Qed.

Lemma StronglySorted_weaken {A} (R1 R2 : relation A) (l : list A) :
  (forall x y, R1 x y -> R2 x y) -> StronglySorted R1 l -> StronglySorted R2 l.
Proof.
  intros HR. induction 1 as [|x l Hl IH Hx]; constructor; [exact IH|].
  eapply Forall_impl; [exact Hx | auto].
Qed.

(** [std_sort] rearranges its argument into ascending tuple order. *)
Lemma std_sort_sorted (l : list WeightedPage) :
  std_sort l ≡ₚ l /\ StronglySorted tuple_le (std_sort l).
Proof.
  split; [apply merge_sort_Permutation|].
  apply (StronglySorted_weaken wp_le); [intros x y; apply wp_le_tuple_le|].
  apply StronglySorted_merge_sort; apply _.
Qed.

(** The loop keeps a candidate exactly when its combined score is not
    zero: scores are counts, so "positive" and "not zero" agree. *)
Lemma weighPages_scored (rx : regex) (i : nat)
    (pages : list LuaUi.ScriptSettingsPage) :
  weighPages rx i pages
  = filter scores_nonzero
      (imap (fun j page =>
               Build_WeightedPage (i + j) (LuaUi.mName page)
                 (- weightedSearch rx (LuaUi.mName page))
                 (- weightedSearch rx (LuaUi.mSearchHints page)))
            pages).
Proof.
  revert i. induction pages as [|page pages IH]; intros i; [reflexivity|].
  cbn [weighPages]. rewrite imap_cons, filter_cons, Nat.add_0_r.
  rewrite (IH (S i)).
  rewrite (imap_ext (_ ∘ S) (fun j page0 =>
             Build_WeightedPage (S i + j) (LuaUi.mName page0)
               (- weightedSearch rx (LuaUi.mName page0))
               (- weightedSearch rx (LuaUi.mSearchHints page0))))
    by (intros j x _; simpl; f_equal; lia).
  pose proof (weightedSearch_nonneg rx (LuaUi.mName page)) as Hn.
  pose proof (weightedSearch_nonneg rx (LuaUi.mSearchHints page)) as Hh.
  destruct (decide _) as [Hnz | Hz]; unfold scores_nonzero in *; simpl in *.
  - replace (0 <? _ + _) with true by (symmetry; apply Z.ltb_lt; lia).
    reflexivity.
  - replace (0 <? _ + _) with false by (symmetry; apply Z.ltb_ge; lia).
    reflexivity.
Qed.

End RankFacts.

(** ** Theorems: the script settings list *)

Section SearchClaims.
Import StdRegex SettingsWindow Spec.

(** C1: for every query and every list of pages, the ranker's result holds
    exactly the candidates whose name-score plus hint-score is not zero (it
    is a rearrangement of those), in ascending order of the tuple (negated
    name-score, negated hint-score, name), and the list shown is read off
    that result in order.  The only queries without a result are those
    that hold a NUL character, which the pattern compiler refuses. *)
Theorem ranker_filters_then_sorts (query : str)
    (pages : list LuaUi.ScriptSettingsPage) :
  if has_nul query
  then wordSearch query = None /\ renderScriptSettings query pages = None
  else exists (rx : regex) (ws : list WeightedPage),
    wordSearch query = Some rx
    /\ rankedPages query pages = Some ws
    /\ renderScriptSettings query pages = Some (listing ws)
    /\ ws ≡ₚ filter scores_nonzero (scored rx pages)
    /\ StronglySorted tuple_le ws.
Proof.
  unfold renderScriptSettings, rankedPages.
  rewrite wordSearch_pattern.
  destruct (has_nul query); [split; reflexivity|].
  exists (pattern query), (std_sort (weighPages (pattern query) 0 pages)).
  simpl. repeat split; try reflexivity.
  - rewrite (proj1 (std_sort_sorted _)), weighPages_scored. reflexivity.
  - apply std_sort_sorted.
Qed.

Lemma weightedSearch_sentinel (s : str) :
  nul_free s -> weightedSearch sentinel s = 2.
Proof.
  intros Hs. unfold weightedSearch, match_results_size.
  rewrite (sentinel_matches s Hs). reflexivity.
Qed.

Lemma weighPages_sentinel (i : nat) (pages : list LuaUi.ScriptSettingsPage) :
  Forall page_nul_free pages ->
  weighPages sentinel i pages
  = imap (fun j page => Build_WeightedPage (i + j) (LuaUi.mName page) (-2) (-2))
         pages.
Proof.
  intros H. revert i. induction H as [|page pages [Hn Hh] _ IH]; intros i;
    [reflexivity|].
  cbn [weighPages]. rewrite imap_cons, Nat.add_0_r.
  rewrite (weightedSearch_sentinel _ Hn), (weightedSearch_sentinel _ Hh).
  simpl. f_equal. rewrite (IH (S i)).
  apply imap_ext. intros j x _. simpl. f_equal. lia.
Qed.

Lemma listing_imap (i : nat) (pages : list LuaUi.ScriptSettingsPage) (a b : Z) :
  listing (imap (fun j page => Build_WeightedPage (i + j) (LuaUi.mName page) a b)
                pages)
  = imap (fun j page => (LuaUi.mName page, (i + j)%nat)) pages.
Proof.
  revert i. induction pages as [|page pages IH]; intros i; [reflexivity|].
  rewrite !imap_cons. unfold listing in *. simpl. f_equal.
  rewrite (imap_ext (_ ∘ S) (fun j page0 =>
             Build_WeightedPage (S i + j) (LuaUi.mName page0) a b))
    by (intros j x _; simpl; f_equal; lia).
  rewrite (IH (S i)). apply imap_ext. intros j x _. simpl. f_equal. lia.
Qed.

Lemma sorted_by_name (ws : list WeightedPage) :
  Forall (fun w => mNameWeight w = -2 /\ mHintWeight w = -2) ws ->
  StronglySorted tuple_le ws ->
  StronglySorted (fun a b : str * nat => str_le a.1 b.1) (listing ws).
Proof.
  intros Hw Hs. induction Hs as [|w ws Hs IH Hall]; [constructor|].
  inversion Hw as [|? ? [Hwn Hwh] Hw']; subst.
  unfold listing in *. simpl. constructor; [apply IH, Hw'|].
  apply Forall_forall. intros x Hx.
  apply list_elem_of_In, in_map_iff in Hx. destruct Hx as (v & <- & Hv).
  simpl.
  assert (Hle : tuple_le w v).
  { eapply Forall_forall in Hall; [exact Hall | apply list_elem_of_In, Hv]. }
  assert (Hvw : mNameWeight v = -2 /\ mHintWeight v = -2).
  { eapply Forall_forall in Hw'; [exact Hw' | apply list_elem_of_In, Hv]. }
  unfold tuple_le in Hle. intuition lia.
Qed.

(** C4 (as the code behaves): for pages whose name and hint hold no NUL
    character, the empty query is answered, not refused: every page is
    listed, each with both scores equal to 2, and the list is in ascending
    order of the names. *)
Theorem empty_query_lists_all_by_name (pages : list LuaUi.ScriptSettingsPage) :
  Forall page_nul_free pages ->
  exists ws : list WeightedPage,
    rankedPages [] pages = Some ws
    /\ renderScriptSettings [] pages = Some (listing ws)
    /\ listing ws ≡ₚ imap (fun i page => (LuaUi.mName page, i)) pages
    /\ StronglySorted (fun a b : str * nat => str_le a.1 b.1) (listing ws)
    /\ Forall (fun w => mNameWeight w = -2 /\ mHintWeight w = -2) ws.
Proof.
  intros Hp. exists (std_sort (weighPages sentinel 0 pages)).
  assert (Hall : Forall (fun w => mNameWeight w = -2 /\ mHintWeight w = -2)
                   (std_sort (weighPages sentinel 0 pages))).
  { rewrite (proj1 (std_sort_sorted _)), (weighPages_sentinel 0 pages Hp).
    clear Hp. generalize 0%nat. induction pages as [|page pages IH]; intros i.
    - constructor.
    - rewrite imap_cons. constructor; [split; reflexivity|].
      rewrite (imap_ext (_ ∘ S) (fun j page0 =>
                 Build_WeightedPage (S i + j) (LuaUi.mName page0) (-2) (-2)))
        by (intros j x _; simpl; f_equal; lia).
      apply IH. }
  split; [reflexivity|]. split; [reflexivity|]. split; [|split].
  - unfold listing at 1.
    rewrite (Permutation_map _ (proj1 (std_sort_sorted _))).
    rewrite (weighPages_sentinel 0 pages Hp).
    fold (listing (imap (fun j page =>
            Build_WeightedPage (0 + j) (LuaUi.mName page) (-2) (-2)) pages)).
    rewrite listing_imap. reflexivity.
  - apply sorted_by_name; [exact Hall | apply std_sort_sorted].
  - exact Hall.
Qed.

Lemma empty_query_lists_all_by_name_witness :
  Forall page_nul_free [page "Video" "resolution"; page "Audio" ""]
  /\ exists ws : list WeightedPage,
    rankedPages [] [page "Video" "resolution"; page "Audio" ""] = Some ws
    /\ renderScriptSettings [] [page "Video" "resolution"; page "Audio" ""]
       = Some (listing ws)
    /\ listing ws
       ≡ₚ imap (fun i page => (LuaUi.mName page, i))
            [page "Video" "resolution"; page "Audio" ""]
    /\ StronglySorted (fun a b : str * nat => str_le a.1 b.1) (listing ws)
    /\ Forall (fun w => mNameWeight w = -2 /\ mHintWeight w = -2) ws.
Proof.
  assert (H : Forall page_nul_free [page "Video" "resolution"; page "Audio" ""]).
  { repeat constructor. }
  split; [exact H|].
  apply (empty_query_lists_all_by_name
           [page "Video" "resolution"; page "Audio" ""] H).
Defined.

(** C4 as the claim words it fails: a page whose name and hint both hold a
    NUL character is not matched by the sentinel and is left out; with a
    NUL in the name only, the page is kept but sorts after the others
    whatever its name. *)
Theorem empty_query_drops_nul_page :
  renderScriptSettings []
    [page "B" ""; LuaUi.Build_ScriptSettingsPage [Ascii.zero] [Ascii.zero]]
    = Some [(text "B", 0%nat)]
  /\ renderScriptSettings []
       [LuaUi.Build_ScriptSettingsPage (text "A" ++ [Ascii.zero]) (text "x");
        page "B" ""]
     = Some [(text "B", 1%nat); (text "A" ++ [Ascii.zero], 0%nat)].
Proof. split; vm_compute; reflexivity. Qed.

(** C5: a query made of whitespace characters only gives the very pattern
    of the empty query, the match-all sentinel, and with it the same list
    for every set of pages. *)
Theorem whitespace_query_is_empty_query (query : str)
    (pages : list LuaUi.ScriptSettingsPage) :
  Forall (fun c => isspace c = true) query ->
  searchRegex_text query = sentinel_text
  /\ searchRegex_text query = searchRegex_text []
  /\ wordSearch query = Some sentinel
  /\ has_nul query = false
  /\ wordSearch query = wordSearch []
  /\ rankedPages query pages = rankedPages [] pages
  /\ renderScriptSettings query pages = renderScriptSettings [] pages.
Proof.
  intros Hq.
  assert (Htext : searchRegex_text query = sentinel_text).
  { rewrite searchRegex_text_pattern_text. unfold pattern_text.
    rewrite (split_ws_spaces query Hq). reflexivity. }
  assert (Hrx : wordSearch query = wordSearch []).
  { unfold wordSearch. rewrite Htext. reflexivity. }
  repeat split.
  - exact Htext.
  - exact Htext.
  - rewrite Hrx. reflexivity.
  - exact (spaces_nul_free query Hq).
  - exact Hrx.
  - unfold rankedPages. rewrite Hrx. reflexivity.
  - unfold renderScriptSettings, rankedPages. rewrite Hrx. reflexivity.
Qed.

Lemma whitespace_query_is_empty_query_witness :
  Forall (fun c => isspace c = true) [" "; "009"; " "; "010"]%char
  /\ searchRegex_text [" "; "009"; " "; "010"]%char = sentinel_text
  /\ searchRegex_text [" "; "009"; " "; "010"]%char = searchRegex_text []
  /\ wordSearch [" "; "009"; " "; "010"]%char = Some sentinel
  /\ has_nul [" "; "009"; " "; "010"]%char = false
  /\ wordSearch [" "; "009"; " "; "010"]%char = wordSearch []
  /\ rankedPages [" "; "009"; " "; "010"]%char [page "Video" "resolution"]
     = rankedPages [] [page "Video" "resolution"]
  /\ renderScriptSettings [" "; "009"; " "; "010"]%char [page "Video" "resolution"]
     = renderScriptSettings [] [page "Video" "resolution"].
Proof.
  assert (H : Forall (fun c => isspace c = true) [" "; "009"; " "; "010"]%char).
  { repeat constructor. }
  split; [exact H|].
  apply (whitespace_query_is_empty_query [" "; "009"; " "; "010"]%char
           [page "Video" "resolution"] H).
Defined.

(** C6: the query "fire" against Fireball (no hint) and Ice Spike (hint
    "fire resistant") lists both, Fireball first: it scores on its name,
    Ice Spike on its hint only. *)
Theorem fire_query_ranks_name_match_first :
  rankedPages (text "fire")
    [page "Fireball" ""; page "Ice Spike" "fire resistant"]
    = Some [Build_WeightedPage 0 (text "Fireball") (-2) 0;
            Build_WeightedPage 1 (text "Ice Spike") 0 (-2)]
  /\ renderScriptSettings (text "fire")
       [page "Fireball" ""; page "Ice Spike" "fire resistant"]
     = Some [(text "Fireball", 0%nat); (text "Ice Spike", 1%nat)]
  /\ renderScriptSettings (text "fire")
       [page "Ice Spike" "fire resistant"; page "Fireball" ""]
     = Some [(text "Fireball", 1%nat); (text "Ice Spike", 0%nat)].
Proof. repeat split; vm_compute; reflexivity. Qed.

Lemma special_is_listed_or_backslash (c : ascii) :
  is_special c = is_listed c || Ascii.eqb c "\".
Proof. destruct c as [[] [] [] [] [] [] [] []]; reflexivity. Qed.

(** C8 (as the code behaves): [escapeRegex] puts a backslash before each of
    twelve characters, the eleven listed ones and the backslash itself,
    and copies every other character.  The words of the query are its
    maximal runs of non-whitespace characters; when there is at least one,
    the pattern text is the escaped words joined by [|] inside one pair of
    parentheses, and otherwise it is the sentinel.  Unless the query holds a
    NUL character, the text compiles, case-insensitively, to a pattern with
    exactly one marked group: around the alternation of the words read
    literally, or the sentinel's. *)
Theorem pattern_builder (query token : str) :
  escapeRegex token = escape_special token
  /\ (forall c : ascii, is_special c = is_listed c || Ascii.eqb c "\")
  /\ words query = split_ws query
  /\ searchRegex_text query
     = match split_ws query with
       | [] => sentinel_text
       | ws => "("%char :: join_alt (map escapeRegex ws) ++ [")"%char]
       end
  /\ wordSearch query
     = (if has_nul query then None
        else Some (match split_ws query with
                   | [] => sentinel
                   | ws => Regex (Group (alt_of (map literal ws))) true
                   end))
  /\ rx_icase (pattern query) = true
  /\ mark_count (rx_ast (pattern query)) = 1%nat.
Proof.
  split; [apply escapeRegex_escape_special|].
  split; [apply special_is_listed_or_backslash|].
  split; [apply words_split_ws|].
  split; [|split; [|split]].
  - rewrite searchRegex_text_pattern_text. unfold pattern_text.
    destruct (split_ws query) as [|w ws]; [reflexivity|].
    rewrite (map_ext escapeRegex escape_special escapeRegex_escape_special).
    reflexivity.
  - apply wordSearch_pattern.
  - unfold pattern. destruct (split_ws query); reflexivity.
  - apply mark_count_pattern.
Qed.

(** C8 as the claim words it fails: the backslash is not among the eleven
    listed characters, yet [escapeRegex] does not leave it unchanged. *)
Theorem escapeRegex_escapes_backslash :
  is_listed "\" = false
  /\ escapeRegex (text "a\b") = text "a\\b"
  /\ escapeRegex (text "a\b") <> escape_listed (text "a\b").
Proof. repeat split. vm_compute. discriminate. Qed.

(** C9: for every query and every text, the score [weightedSearch] gives
    the text over the pattern built by [wordSearch] is 2 when the pattern
    matches somewhere in the text and 0 when it does not: never another
    value, however many words of the query occur and however often.  (No
    pattern is built for a query with a NUL character.) *)
Theorem field_score_is_zero_or_two (query text : str) :
  if has_nul query then wordSearch query = None
  else exists rx : regex,
    wordSearch query = Some rx
    /\ weightedSearch rx text = (if regex_search rx text then 2 else 0)
    /\ (weightedSearch rx text = 0 \/ weightedSearch rx text = 2).
Proof.
  rewrite wordSearch_pattern.
  destruct (has_nul query); [reflexivity|].
  exists (pattern query). split; [reflexivity|].
  rewrite weightedSearch_pattern.
  split; [reflexivity|].
  destruct (regex_search (pattern query) text); [right | left]; reflexivity.
Qed.

Example nul_query_refused :
  wordSearch (text "a" ++ [Ascii.zero]) = None.
Proof. reflexivity. Qed.

Example score_one_word_once :
  weightedSearch (pattern (text "fire ice")) (text "a fire") = 2.
Proof. vm_compute. reflexivity. Qed.

Example score_two_words_many_times :
  weightedSearch (pattern (text "fire ice")) (text "fire ice fire ICE") = 2.
Proof. vm_compute. reflexivity. Qed.

Example score_no_word :
  weightedSearch (pattern (text "fire ice")) (text "water") = 0.
Proof. vm_compute. reflexivity. Qed.

End SearchClaims.

(** ** Theorems: the brush history under both slots *)

Section BrushEventFacts.
Import BrushHistory BrushEvents.

Lemma updateBrushHistory_take (x : string) (h : list string) :
  (length h <= 5)%nat -> updateBrushHistory x h = take 5 (x :: h).
Proof.
  intros Hlen. unfold updateBrushHistory.
  destruct (5 <? Z.of_nat (length (x :: h))) eqn:E.
  - apply Z.ltb_lt in E. rewrite removelast_firstn_len.
    replace (Nat.pred (length (x :: h))) with 5%nat by (simpl in *; lia).
    reflexivity.
  - apply Z.ltb_ge in E. symmetry. apply take_ge. lia.
Qed.

Lemma take_app_take {A} (n : nat) (a b : list A) :
  take n (a ++ take n b) = take n (a ++ b).
Proof.
  rewrite !take_app, take_take. do 2 f_equal. lia.
Qed.

(** X1: a history of at most five entries is, after any calls of
    [updateBrushHistory], the first five of the identifiers used, latest
    first, followed by the entries it had. *)
Theorem uses_latest_five (xs : list string) (h : list string) :
  (length h <= 5)%nat ->
  uses xs h = take 5 (rev xs ++ h).
Proof.
  revert h. induction xs as [|x xs IH]; intros h Hlen.
  - simpl. symmetry. apply take_ge. exact Hlen.
  - change (uses (x :: xs) h) with (uses xs (updateBrushHistory x h)).
    rewrite IH by (apply updateBrushHistory_length, Hlen).
    rewrite (updateBrushHistory_take x h Hlen), take_app_take.
    simpl. rewrite <- app_assoc. reflexivity.
Qed.

Lemma uses_latest_five_witness :
  (length initial <= 5)%nat
  /\ uses ["a"; "b"; "c"]%string initial
     = take 5 (rev ["a"; "b"; "c"]%string ++ initial).
Proof.
  split; [simpl; lia|].
  apply (uses_latest_five ["a"; "b"; "c"]%string initial). simpl. lia.
Defined.

Lemma clicked_inv (column row : Z) (h : list string) (r : clicked_result) :
  clicked column row h = Some r ->
  cr_history r = h /\ cr_emitted r = None /\ negb ((column =? 0) || (column =? 1)) = true
  \/ exists (p : nat) (a b : string),
       (column =? 0) || (column =? 1) = true
       /\ row = Z.of_nat p /\ h !! p = Some b /\ h !! 0%nat = Some a
       /\ cr_history r = <[0%nat := b]> (<[p := a]> h)
       /\ cr_emitted r = Some b.
Proof.
  unfold clicked. destruct ((column =? 0) || (column =? 1)) eqn:Hc.
  - destruct ((0 <=? row) && (row <? Z.of_nat (length h))) eqn:Hr; [|discriminate].
    apply andb_true_iff in Hr. destruct Hr as [H0 _]. apply Z.leb_le in H0.
    destruct (h !! Z.to_nat row) as [b|] eqn:Hb; [|discriminate].
    destruct (h !! 0%nat) as [a|] eqn:Ha; [|discriminate].
    intros [= <-]. right. exists (Z.to_nat row), a, b.
    repeat split; auto. lia.
  - intros [= <-]. left. auto.
Qed.

Lemma clicked_Permutation (column row : Z) (h : list string) (r : clicked_result) :
  clicked column row h = Some r -> cr_history r ≡ₚ h.
Proof.
  intros H. apply clicked_inv in H.
  destruct H as [(-> & _) | (p & a & b & _ & _ & Hb & Ha & -> & _)]; [reflexivity|].
  destruct h as [|a' t]; [discriminate|]. simplify_eq/=.
  destruct p as [|n]; simpl in *.
  - simplify_eq. reflexivity.
  - apply insert_swap_Permutation, Hb.
Qed.

(** X2: clicking the same row twice restores the history: the second click
    exchanges the two entries back, and passes on the entry that was at the
    front before the first. *)
Theorem clicked_twice_restores (column : Z) (p : nat) (h : list string) :
  column = 0 \/ column = 1 ->
  (p < length h)%nat ->
  exists r1 r2 : clicked_result,
    clicked column (Z.of_nat p) h = Some r1
    /\ clicked column (Z.of_nat p) (cr_history r1) = Some r2
    /\ cr_history r2 = h
    /\ cr_emitted r1 = h !! p
    /\ cr_emitted r2 = h !! 0%nat.
Proof.
  intros Hcol Hp.
  assert (Hc : (column =? 0) || (column =? 1) = true)
    by (destruct Hcol; subst; reflexivity).
  destruct (lookup_lt_is_Some_2 h p Hp) as [b Hb].
  destruct h as [|a t]; [simpl in Hp; lia|].
  assert (Hrange : forall l : list string, length l = length (a :: t) ->
            (0 <=? Z.of_nat p) && (Z.of_nat p <? Z.of_nat (length l)) = true).
  { intros l Hl. apply andb_true_intro. split; [apply Z.leb_le | apply Z.ltb_lt]; lia. }
  set (h1 := <[0%nat := b]> (<[p := a]> (a :: t))).
  assert (Hlen1 : length h1 = length (a :: t))
    by (unfold h1; rewrite !length_insert; reflexivity).
  assert (H10 : h1 !! 0%nat = Some b) by (unfold h1; destruct p; reflexivity).
  assert (H1p : h1 !! p = Some (if decide (p = 0%nat) then b else a)).
  { unfold h1. destruct p as [|n]; [reflexivity|].
    simpl. apply list_lookup_insert_eq. apply lookup_lt_is_Some. eauto. }
  exists (ClickedResult h1 (Some b)),
         (ClickedResult (a :: t) (Some (if decide (p = 0%nat) then b else a))).
  split; [|split; [|split; [|split]]].
  - unfold clicked. rewrite Hc, (Hrange (a :: t) eq_refl), Nat2Z.id, Hb.
    reflexivity.
  - simpl cr_history. unfold clicked.
    rewrite Hc, (Hrange h1 Hlen1), Nat2Z.id, H1p, H10.
    do 2 f_equal. unfold h1. destruct p as [|n]; simpl in *.
    + simplify_eq. reflexivity.
    + f_equal. rewrite list_insert_insert_eq. apply list_insert_id, Hb.
  - reflexivity.
  - simpl. symmetry. exact Hb.
  - simpl. destruct p; simpl in *; congruence.
Qed.

Lemma clicked_twice_restores_witness :
  exists r1 r2 : clicked_result,
    clicked 0 (Z.of_nat 2) ["A"; "B"; "C"]%string = Some r1
    /\ clicked 0 (Z.of_nat 2) (cr_history r1) = Some r2
    /\ cr_history r2 = ["A"; "B"; "C"]%string
    /\ cr_emitted r1 = ["A"; "B"; "C"]%string !! 2%nat
    /\ cr_emitted r2 = ["A"; "B"; "C"]%string !! 0%nat.
Proof.
  apply (clicked_twice_restores 0 2 ["A"; "B"; "C"]%string).
  - left. reflexivity.
  - simpl. lia.
Defined.

Lemma used_app (es1 es2 : list event) : used (es1 ++ es2) = used es1 ++ used es2.
Proof. unfold used. apply flat_map_app. Qed.

Lemma run_invariant (es : list event) (h0 h : list string) :
  run es h0 = Some h ->
  (1 <= length h0 <= 5)%nat ->
  (1 <= length h <= 5)%nat
  /\ forall x, x ∈ h -> x ∈ h0 \/ x ∈ used es.
Proof.
  revert h0. induction es as [|e es IH]; intros h0 Hrun Hlen.
  - simpl in Hrun. simplify_eq. split; [exact Hlen | auto].
  - simpl in Hrun. destruct (step h0 e) as [h1|] eqn:Hstep; [|discriminate].
    destruct e as [x0 | column row]; simpl in Hstep.
    + simplify_eq.
      assert (Hlen1 : (1 <= length (updateBrushHistory x0 h0) <= 5)%nat).
      { split; [|apply updateBrushHistory_length; lia].
        rewrite updateBrushHistory_take by lia. rewrite length_take. simpl. lia. }
      destruct (IH _ Hrun Hlen1) as [Hl Hin]. split; [exact Hl|].
      intros x Hx. destruct (Hin x Hx) as [Hx1 | Hx1].
      * rewrite updateBrushHistory_take in Hx1 by lia.
        apply (subseteq_take 5 (x0 :: h0)) in Hx1.
        apply elem_of_cons in Hx1. destruct Hx1 as [-> | Hx1]; [|left; exact Hx1].
        right. simpl. left.
      * right. simpl. right. exact Hx1.
    + destruct (clicked column row h0) as [r|] eqn:Hclick; [|discriminate].
      simpl in Hstep. simplify_eq.
      pose proof (clicked_Permutation _ _ _ _ Hclick) as Hperm.
      assert (Hlen1 : (1 <= length (cr_history r) <= 5)%nat)
        by (rewrite Hperm; exact Hlen).
      destruct (IH _ Hrun Hlen1) as [Hl Hin]. split; [exact Hl|].
      intros x Hx. destruct (Hin x Hx) as [Hx1 | Hx1].
      * left. rewrite <- Hperm. exact Hx1.
      * right. exact Hx1.
Qed.

(** X3: whatever calls of [updateBrushHistory] and [clicked] the history
    of a new tool has gone through, it holds between one and five
    entries, and each of them is the initial texture or an identifier that
    was passed to [updateBrushHistory]. *)
Theorem history_invariant (es : list event) (h : list string) :
  run es initial = Some h ->
  (1 <= length h <= 5)%nat
  /\ forall x, x ∈ h -> x = "L0#0"%string \/ x ∈ used es.
Proof.
  intros Hrun.
  destruct (run_invariant es initial h Hrun) as [Hlen Hin]; [simpl; lia|].
  split; [exact Hlen|]. intros x Hx. destruct (Hin x Hx) as [H0 | H1].
  - left. apply list_elem_of_singleton in H0. exact H0.
  - right. exact H1.
Qed.

Lemma history_invariant_witness :
  run [Use "a"; Click 0 1; Use "b"; Click 1 2]%string initial
    = Some ["a"; "L0#0"; "b"]%string
  /\ (1 <= length ["a"; "L0#0"; "b"]%string <= 5)%nat
  /\ forall x, x ∈ ["a"; "L0#0"; "b"]%string ->
       x = "L0#0"%string
       \/ x ∈ used [Use "a"; Click 0 1; Use "b"; Click 1 2]%string.
Proof.
  split; [reflexivity|].
  apply (history_invariant [Use "a"; Click 0 1; Use "b"; Click 1 2]%string).
  reflexivity.
Defined.

End BrushEventFacts.

(** ** Theorems: combo boxes, buttons and layout of the settings window *)

Section ControlFacts.
Import CInt SettingsControls.

(** X4: choosing one of the four entries of the "max lights" box stores
    8, 16, 24 or 32, and for that value [updateMaxLightsComboBox] selects
    the entry chosen. *)
Theorem max_lights_position_round_trip (pos : Z) :
  0 <= pos <= 3 ->
  onMaxLightsChanged pos = 8 * (pos + 1)
  /\ updateMaxLightsComboBox (onMaxLightsChanged pos) = pos.
Proof.
  intros H. assert (Hc : pos = 0 \/ pos = 1 \/ pos = 2 \/ pos = 3) by lia.
  destruct Hc as [-> | [-> | [-> | ->]]]; split; reflexivity.
Qed.

Lemma max_lights_position_round_trip_witness :
  onMaxLightsChanged 2 = 8 * (2 + 1)
  /\ updateMaxLightsComboBox (onMaxLightsChanged 2) = 2.
Proof. apply (max_lights_position_round_trip 2). lia. Defined.

(** X5: for every value of "max lights", [updateMaxLightsComboBox] selects
    no entry or one of the four entries, and then it is the entry that
    stores this very value; no entry is selected for the value that
    [onMaxLightsChanged] stores when it is called with no entry chosen
    (it has no guard for that case). *)
Theorem max_lights_selection (maxLights : Z) :
  (updateMaxLightsComboBox maxLights = ITEM_NONE
   \/ (0 <= updateMaxLightsComboBox maxLights <= 3
       /\ onMaxLightsChanged (updateMaxLightsComboBox maxLights) = maxLights))
  /\ onMaxLightsChanged ITEM_NONE = 0
  /\ updateMaxLightsComboBox (onMaxLightsChanged ITEM_NONE) = ITEM_NONE.
Proof.
  split; [|split; reflexivity].
  unfold updateMaxLightsComboBox.
  destruct ((8 <=? maxLights) && (maxLights <=? 32) && (Z.rem maxLights 8 =? 0))
    eqn:E; [right | left; reflexivity].
  apply andb_true_iff in E. destruct E as [E E3].
  apply andb_true_iff in E. destruct E as [E1 E2].
  apply Z.leb_le in E1, E2. apply Z.eqb_eq in E3.
  assert (Hc : maxLights = 8 \/ maxLights = 16 \/ maxLights = 24 \/ maxLights = 32).
  { rewrite Z.rem_mod_nonneg in E3 by lia.
    pose proof (Z.div_mod maxLights 8 ltac:(lia)) as Hd. lia. }
  destruct Hc as [-> | [-> | [-> | ->]]]; split; try reflexivity;
    vm_compute; split; discriminate.
Qed.

(** X6: for every position, the value [onWaterTextureSizeChanged] stores
    makes the constructor select that position again when it is one of the
    three entries, and select nothing otherwise (the value stored is then
    0). *)
Theorem water_texture_size_round_trip (pos : Z) :
  waterTextureSizeIndex (onWaterTextureSizeChanged pos)
  = if (0 <=? pos) && (pos <=? 2) then Some pos else None.
Proof.
  unfold onWaterTextureSizeChanged.
  destruct (pos =? 0) eqn:E0; [apply Z.eqb_eq in E0; subst; reflexivity|].
  destruct (pos =? 1) eqn:E1; [apply Z.eqb_eq in E1; subst; reflexivity|].
  destruct (pos =? 2) eqn:E2; [apply Z.eqb_eq in E2; subst; reflexivity|].
  apply Z.eqb_neq in E0, E1, E2.
  replace ((0 <=? pos) && (pos <=? 2)) with false; [reflexivity|].
  symmetry. apply andb_false_iff.
  destruct (Z.leb_spec 0 pos); [right; apply Z.leb_gt; lia | left; reflexivity].
Qed.

(** X7: for every stored "rtt size" the constructor selects the entry with
    the largest size that is not above it, and none below 512. *)
Theorem water_texture_size_selection (waterTextureSize : Z) :
  match waterTextureSizeIndex waterTextureSize with
  | None => waterTextureSize < 512
  | Some i =>
      0 <= i <= 2
      /\ onWaterTextureSizeChanged i <= waterTextureSize
      /\ (i = 2 \/ waterTextureSize < onWaterTextureSizeChanged (i + 1))
  end.
Proof.
  unfold waterTextureSizeIndex.
  change (onWaterTextureSizeChanged 0) with 512.
  destruct (Z.leb_spec 2048 waterTextureSize).
  { change (onWaterTextureSizeChanged 2) with 2048. lia. }
  destruct (Z.leb_spec 1024 waterTextureSize).
  { change (onWaterTextureSizeChanged 1) with 1024.
    change (onWaterTextureSizeChanged (1 + 1)) with 2048. lia. }
  destruct (Z.leb_spec 512 waterTextureSize); [|lia].
  change (onWaterTextureSizeChanged 0) with 512.
  change (onWaterTextureSizeChanged (0 + 1)) with 1024. lia.
Qed.

(** X8: the water detail levels stay in range in both directions: a position
    stores a level from 0 to 5 (0 to 2 for rain ripples), itself when it is
    in that range and the highest level when no entry is chosen; whatever
    is stored, the constructor selects an index from 0 to 5 (0 to 2), and
    the index of a level a position stored is that level. *)
Theorem water_detail_levels (pos detail : Z) :
  0 <= pos ->
  (0 <= onWaterReflectionDetailChanged pos <= 5
   /\ 0 <= onWaterRainRippleDetailChanged pos <= 2)
  /\ (0 <= waterReflectionDetailIndex detail <= 5
      /\ 0 <= waterRainRippleDetailIndex detail <= 2)
  /\ (waterReflectionDetailIndex (onWaterReflectionDetailChanged pos)
        = Z.min pos 5
      /\ waterRainRippleDetailIndex (onWaterRainRippleDetailChanged pos)
        = Z.min pos 2)
  /\ (onWaterReflectionDetailChanged ITEM_NONE = 5
      /\ onWaterRainRippleDetailChanged ITEM_NONE = 2).
Proof.
  intros Hpos.
  unfold onWaterReflectionDetailChanged, onWaterRainRippleDetailChanged,
    waterReflectionDetailIndex, waterRainRippleDetailIndex, clamp.
  repeat split; try reflexivity;
    repeat match goal with
           | |- context [?a <? ?b] => destruct (Z.ltb_spec a b)
           end; lia.
Qed.

Lemma water_detail_levels_witness :
  (0 <= onWaterReflectionDetailChanged 7 <= 5
   /\ 0 <= onWaterRainRippleDetailChanged 7 <= 2)
  /\ (0 <= waterReflectionDetailIndex (-3) <= 5
      /\ 0 <= waterRainRippleDetailIndex (-3) <= 2)
  /\ (waterReflectionDetailIndex (onWaterReflectionDetailChanged 7)
        = Z.min 7 5
      /\ waterRainRippleDetailIndex (onWaterRainRippleDetailChanged 7)
        = Z.min 7 2)
  /\ (onWaterReflectionDetailChanged ITEM_NONE = 5
      /\ onWaterRainRippleDetailChanged ITEM_NONE = 2).
Proof. apply (water_detail_levels 7 (-3)). lia. Defined.

Lemma lookup_set_locale (i : nat) (a : string) (cur : list string) (k : nat) :
  (<[i := a]> (if (length cur <=? i)%nat
               then resize (i + 1) "en"%string cur else cur)) !! k
  = if decide (k = i) then Some a
    else if decide (k < length cur)%nat then cur !! k
    else if decide (k < i)%nat then Some "en"%string
    else None.
Proof.
  destruct (Nat.leb_spec (length cur) i) as [Hle | Hlt].
  - destruct (decide (k = i)) as [-> | Hne].
    + apply list_lookup_insert_eq. rewrite length_resize. lia.
    + rewrite list_lookup_insert_ne by auto.
      destruct (decide (k < length cur)%nat) as [Hk | Hk].
      * apply lookup_resize; lia.
      * destruct (decide (k < i)%nat) as [Hki | Hki].
        -- apply lookup_resize_new; lia.
        -- apply lookup_resize_old. lia.
  - destruct (decide (k = i)) as [-> | Hne].
    + apply list_lookup_insert_eq. lia.
    + rewrite list_lookup_insert_ne by auto.
      destruct (decide (k < length cur)%nat) as [Hk | Hk]; [reflexivity|].
      rewrite lookup_ge_None_2 by lia.
      destruct (decide (k < i)%nat); [lia | reflexivity].
Qed.

Lemma length_set_locale (i : nat) (a : string) (cur : list string) :
  length (<[i := a]> (if (length cur <=? i)%nat
                      then resize (i + 1) "en"%string cur else cur))
  = Nat.max (length cur) (i + 1).
Proof.
  rewrite length_insert.
  destruct (Nat.leb_spec (length cur) i); [rewrite length_resize|]; lia.
Qed.

(** X9: when an entry of a language box is chosen, [onLanguageChanged]
    stores a list that has the chosen language at the box's priority, keeps
    every other locale that was stored, and fills a gap below the priority
    with "en"; the list grows only as far as the priority requires. *)
Theorem language_change_stores (langPriority : nat) (pos : Z)
    (languageNames currentLocales : list string) (language : string) :
  0 <= pos -> pos <> ITEM_NONE ->
  languageNames !! Z.to_nat pos = Some language ->
  exists locales : list string,
    onLanguageChanged langPriority pos languageNames currentLocales
      = LanguageStored locales
    /\ length locales = Nat.max (length currentLocales) (langPriority + 1)
    /\ locales !! langPriority = Some language
    /\ (forall j : nat, j <> langPriority -> (j < length currentLocales)%nat ->
          locales !! j = currentLocales !! j)
    /\ (forall j : nat, (length currentLocales <= j < langPriority)%nat ->
          locales !! j = Some "en"%string).
Proof.
  intros Hpos Hnone Hname. eexists. unfold onLanguageChanged.
  rewrite (proj2 (Z.eqb_neq _ _) Hnone), Hname.
  split; [reflexivity|]. split; [apply length_set_locale|].
  split; [|split].
  - rewrite lookup_set_locale. rewrite decide_True by reflexivity. reflexivity.
  - intros j Hj Hlt. rewrite lookup_set_locale.
    rewrite decide_False by exact Hj. rewrite decide_True by exact Hlt.
    reflexivity.
  - intros j Hj. rewrite lookup_set_locale.
    rewrite decide_False by lia. rewrite decide_False by lia.
    rewrite decide_True by lia. reflexivity.
Qed.

Lemma language_change_stores_witness :
  exists locales : list string,
    onLanguageChanged 1 2 ["de"; "en"; "fr"]%string [] = LanguageStored locales
    /\ length locales = Nat.max (length (@nil string)) (1 + 1)
    /\ locales !! 1%nat = Some "fr"%string
    /\ (forall j : nat, j <> 1%nat -> (j < length (@nil string))%nat ->
          locales !! j = (@nil string) !! j)
    /\ (forall j : nat, (length (@nil string) <= j < 1)%nat ->
          locales !! j = Some "en"%string).
Proof.
  apply (language_change_stores 1 2 ["de"; "en"; "fr"]%string [] "fr"%string).
  - lia.
  - discriminate.
  - reflexivity.
Defined.

(** X10: changes at two different priorities commute: whichever of the two
    language boxes is changed first, the list stored in the end is the
    same. *)
Theorem language_changes_commute (i j : nat) (p q : Z)
    (languageNames currentLocales : list string) (a b : string) :
  i <> j ->
  p <> ITEM_NONE -> q <> ITEM_NONE ->
  languageNames !! Z.to_nat p = Some a ->
  languageNames !! Z.to_nat q = Some b ->
  exists l1 l2 l : list string,
    onLanguageChanged i p languageNames currentLocales = LanguageStored l1
    /\ onLanguageChanged j q languageNames l1 = LanguageStored l
    /\ onLanguageChanged j q languageNames currentLocales = LanguageStored l2
    /\ onLanguageChanged i p languageNames l2 = LanguageStored l.
Proof.
  intros Hij Hp Hq Ha Hb. unfold onLanguageChanged.
  rewrite (proj2 (Z.eqb_neq _ _) Hp), (proj2 (Z.eqb_neq _ _) Hq), Ha, Hb.
  eexists _, _, _. split; [reflexivity|]. split; [reflexivity|].
  split; [reflexivity|]. f_equal.
  apply list_eq. intros k.
  rewrite !lookup_set_locale, !length_set_locale.
  repeat match goal with
         | |- context [decide ?P] => destruct (decide P)
         end; try reflexivity; try lia; subst;
    symmetry; try (apply lookup_ge_None_2; lia).
Qed.

Lemma language_changes_commute_witness :
  exists l1 l2 l : list string,
    onLanguageChanged 0 0 ["de"; "fr"]%string ["en"]%string = LanguageStored l1
    /\ onLanguageChanged 1 1 ["de"; "fr"]%string l1 = LanguageStored l
    /\ onLanguageChanged 1 1 ["de"; "fr"]%string ["en"]%string = LanguageStored l2
    /\ onLanguageChanged 0 0 ["de"; "fr"]%string l2 = LanguageStored l.
Proof.
  apply (language_changes_commute 0 1 0 1 ["de"; "fr"]%string ["en"]%string
           "de"%string "fr"%string).
  - lia.
  - discriminate.
  - discriminate.
  - reflexivity.
  - reflexivity.
Defined.

(** X11: when the two captions differ and the button shows one of them,
    toggling twice brings the caption back, and the two values stored for a
    check button are opposite: "off" first exactly when the button showed
    the "on" caption. *)
Theorem button_toggle_twice (on off caption : string) :
  on <> off ->
  caption = on \/ caption = off ->
  exists (caption1 : string) (state1 : bool),
    onButtonToggled on off caption "CheckButton" = (caption1, Some state1)
    /\ onButtonToggled on off caption1 "CheckButton"
       = (caption, Some (negb state1))
    /\ caption1 <> caption
    /\ state1 = negb (String.eqb caption on).
Proof.
  intros Hne Hcap.
  assert (Hoff : String.eqb off on = false)
    by (apply String.eqb_neq; congruence).
  destruct Hcap as [-> | ->]; unfold onButtonToggled.
  - exists off, false. rewrite !String.eqb_refl, Hoff.
    repeat split. congruence.
  - exists on, true. rewrite !String.eqb_refl, Hoff.
    repeat split. exact Hne.
Qed.

Lemma button_toggle_twice_witness :
  exists (caption1 : string) (state1 : bool),
    onButtonToggled "On" "Off" "Off" "CheckButton" = (caption1, Some state1)
    /\ onButtonToggled "On" "Off" caption1 "CheckButton"
       = ("Off"%string, Some (negb state1))
    /\ caption1 <> "Off"%string
    /\ state1 = negb (String.eqb "Off" "On").
Proof.
  apply (button_toggle_twice "On" "Off" "Off"); [discriminate | right; reflexivity].
Defined.

Lemma switch_invariant (cs : list switch_click) (s : switches) :
  keyboardSelected s = mKeyboardMode s ->
  controllerSelected s = negb (mKeyboardMode s) ->
  keyboardSelected (fold_left switch_step cs s)
    = mKeyboardMode (fold_left switch_step cs s)
  /\ controllerSelected (fold_left switch_step cs s)
    = negb (mKeyboardMode (fold_left switch_step cs s))
  /\ (rebuilt (fold_left switch_step cs s) <= rebuilt s + length cs)%nat.
Proof.
  revert s. induction cs as [|c cs IH]; intros s Hk Hc.
  - simpl. split; [exact Hk|]. split; [exact Hc | lia].
  - simpl.
    assert (Hstep : keyboardSelected (switch_step s c) = mKeyboardMode (switch_step s c)
                    /\ controllerSelected (switch_step s c)
                       = negb (mKeyboardMode (switch_step s c))
                    /\ (rebuilt (switch_step s c) <= S (rebuilt s))%nat).
    { destruct c; simpl;
        unfold onKeyboardSwitchClicked, onControllerSwitchClicked;
        destruct (mKeyboardMode s) eqn:E; simpl; rewrite ?E; auto. }
    destruct Hstep as (H1 & H2 & H3).
    destruct (IH _ H1 H2) as (K1 & K2 & K3).
    split; [exact K1|]. split; [exact K2 | lia].
Qed.

(** X12: after any clicks on the two switches, exactly the switch of the
    current mode is shown selected, the mode is that of the last click, the
    controls box was rebuilt at most once per click, and a second click on
    the same switch changes nothing. *)
Theorem switches_follow_last_click (cs : list switch_click) (c : switch_click) :
  let s := fold_left switch_step (cs ++ [c]) switches_initial in
  keyboardSelected s = mKeyboardMode s
  /\ controllerSelected s = negb (mKeyboardMode s)
  /\ mKeyboardMode s = match c with KeyboardClick => true | ControllerClick => false end
  /\ (rebuilt s <= length (cs ++ [c]))%nat
  /\ switch_step s c = s.
Proof.
  intros s.
  destruct (switch_invariant (cs ++ [c]) switches_initial eq_refl eq_refl)
    as (H1 & H2 & H3).
  fold s in H1, H2, H3.
  assert (Hmode : mKeyboardMode s
                  = match c with KeyboardClick => true | ControllerClick => false end).
  { unfold s. rewrite fold_left_app. simpl.
    destruct c; simpl; unfold onKeyboardSwitchClicked, onControllerSwitchClicked;
      destruct (mKeyboardMode (fold_left switch_step cs switches_initial)) eqn:E;
      simpl; rewrite ?E; reflexivity. }
  split; [exact H1|]. split; [exact H2|]. split; [exact Hmode|].
  split; [exact H3|].
  destruct c; simpl; unfold onKeyboardSwitchClicked, onControllerSwitchClicked;
    rewrite Hmode; reflexivity.
Qed.

Lemma to_int_small (z : Z) : 0 <= z < 2147483648 -> to_int (to_size_t z) = z.
Proof.
  intros H. unfold to_int, to_size_t.
  change (2 ^ 64) with 18446744073709551616.
  change (2 ^ 32) with 4294967296. change (2 ^ 31) with 2147483648.
  rewrite (Z.mod_small z) by lia.
  rewrite Z.mod_small by lia. lia.
Qed.

(** X13: [layoutControlsBox] puts the children in rows of two, 18 units
    high and 18 units apart: a child's top is 18 times half its index, two
    children share a top exactly when they are in the same row and are at
    least a row apart otherwise, and with an even number of children every
    child ends inside the canvas. *)
Theorem controls_box_rows (boxWidth boxHeight childCount i j : Z) :
  0 <= i < childCount -> 0 <= j < childCount ->
  childCount <= 100000000 ->
  Z.even childCount = true ->
  childCoord boxWidth i = (0, 18 * (i / 2), boxWidth - 28, 18)
  /\ (i / 2 = j / 2 -> (childCoord boxWidth i).1.1.2 = (childCoord boxWidth j).1.1.2)
  /\ (i / 2 < j / 2 ->
      (childCoord boxWidth i).1.1.2 + 18 <= (childCoord boxWidth j).1.1.2)
  /\ (canvasSize boxWidth boxHeight childCount).1 = boxWidth
  /\ 0 <= (childCoord boxWidth i).1.1.2
  /\ (childCoord boxWidth i).1.1.2 + 18
     <= (canvasSize boxWidth boxHeight childCount).2.
Proof.
  intros Hi Hj Hn Heven.
  apply Z.even_spec in Heven. destruct Heven as [m Hm].
  assert (Htop : forall k, 0 <= k < childCount ->
            childCoord boxWidth k = (0, 18 * (k / 2), boxWidth - 28, 18)).
  { intros k Hk. unfold childCoord.
    rewrite Z.quot_div_nonneg by lia.
    rewrite to_int_small by (Z.to_euclidean_division_equations; lia).
    f_equal. f_equal. f_equal. lia. }
  rewrite (Htop i Hi), (Htop j Hj). simpl.
  split; [reflexivity|]. split; [lia|]. split; [lia|].
  split; [reflexivity|].
  split; [Z.to_euclidean_division_equations; lia|].
  unfold canvasSize. cbn [snd].
  rewrite Z.quot_div_nonneg by lia.
  rewrite to_int_small by (Z.to_euclidean_division_equations; lia).
  Z.to_euclidean_division_equations. lia.
Qed.

Lemma controls_box_rows_witness :
  childCoord 300 5 = (0, 18 * (5 / 2), 300 - 28, 18)
  /\ (5 / 2 = 4 / 2 -> (childCoord 300 5).1.1.2 = (childCoord 300 4).1.1.2)
  /\ (5 / 2 < 4 / 2 -> (childCoord 300 5).1.1.2 + 18 <= (childCoord 300 4).1.1.2)
  /\ (canvasSize 300 40 6).1 = 300
  /\ 0 <= (childCoord 300 5).1.1.2
  /\ (childCoord 300 5).1.1.2 + 18 <= (canvasSize 300 40 6).2.
Proof.
  apply (controls_box_rows 300 40 6 5 4); [lia | lia | lia | reflexivity].
Defined.

End ControlFacts.

(** ** Theorems: the resolution list *)

Section ResolutionFacts.
Import CInt ResolutionList.

Lemma sortResolutions_spec (a b : Z * Z) :
  sortResolutions a b = true <-> b.1 < a.1 \/ (a.1 = b.1 /\ b.2 < a.2).
Proof.
  unfold sortResolutions. destruct (Z.eqb_spec a.1 b.1) as [E | E].
  - rewrite Z.ltb_lt. lia.
  - rewrite Z.ltb_lt. lia.
Qed.

Lemma res_le_spec (a b : Z * Z) :
  res_le a b <-> b.1 < a.1 \/ (a.1 = b.1 /\ b.2 <= a.2).
Proof.
  unfold res_le. rewrite <- not_true_iff_false, sortResolutions_spec. lia.
Qed.

(** X14: [sortResolutions] is a strict order in which two different
    resolutions are always comparable, as [std::sort] requires: it is
    irreflexive, asymmetric and transitive, and two resolutions of which
    neither comes before the other are equal.  The wider resolution comes
    first, and of two equally wide ones the higher. *)
Theorem sortResolutions_strict_total (a b c : Z * Z) :
  sortResolutions a a = false
  /\ (sortResolutions a b = true -> sortResolutions b a = false)
  /\ (sortResolutions a b = true -> sortResolutions b c = true ->
      sortResolutions a c = true)
  /\ (sortResolutions a b = false -> sortResolutions b a = false -> a = b)
  /\ (sortResolutions a b = true <-> b.1 < a.1 \/ (a.1 = b.1 /\ b.2 < a.2)).
Proof.
  rewrite <- !not_true_iff_false, !sortResolutions_spec.
  destruct a as [a1 a2], b as [b1 b2], c as [c1 c2]. simpl.
  repeat split; try lia.
  intros H1 H2. f_equal; lia.
Qed.

#[local] Instance res_le_total : Total res_le.
Proof. intros a b. rewrite !res_le_spec. lia. Qed.

#[local] Instance res_le_trans : Transitive res_le.
Proof. intros a b c. rewrite !res_le_spec. lia. Qed.

(** X15: the sorted display modes are the reported ones, rearranged so that
    widths never increase along the list and, among equal widths, heights
    never increase: the largest resolution is first.  No other arrangement
    of the modes is in the order of [sortResolutions], so the result does
    not depend on the sorting algorithm. *)
Theorem resolutions_sorted_descending (modes : list (Z * Z)) :
  sort_resolutions modes ≡ₚ modes
  /\ StronglySorted (fun a b : Z * Z => b.1 < a.1 \/ (a.1 = b.1 /\ b.2 <= a.2))
       (sort_resolutions modes)
  /\ forall l : list (Z * Z),
       l ≡ₚ modes ->
       StronglySorted (fun a b => sortResolutions b a = false) l ->
       l = sort_resolutions modes.
Proof.
  assert (Hs : StronglySorted res_le (sort_resolutions modes))
    by (apply StronglySorted_merge_sort; apply _).
  split; [apply merge_sort_Permutation|].
  split; [apply (StronglySorted_weaken res_le); [intros x y; apply res_le_spec|exact Hs]|].
  intros l Hp Hl.
  assert (Ha : AntiSymm eq res_le).
  { intros [a1 a2] [b1 b2]. rewrite !res_le_spec. simpl. intros H1 H2. f_equal; lia. }
  apply (StronglySorted_unique res_le); [exact Hl | exact Hs |].
  rewrite Hp. symmetry. apply merge_sort_Permutation.
Qed.

Lemma addResolutions_spec (resolutions : list (Z * Z)) (items : list string) :
  NoDup items ->
  exists new : list string,
    addResolutions resolutions items = items ++ new
    /\ NoDup (items ++ new)
    /\ new `sublist_of` (resolutionItem <$> resolutions)
    /\ forall s, s ∈ new <-> (s ∉ items) /\ s ∈ (resolutionItem <$> resolutions).
Proof.
  revert items. induction resolutions as [|r rs IH]; intros items Hnd.
  - exists []. rewrite app_nil_r. split; [reflexivity|]. split; [exact Hnd|].
    split; [constructor|]. intros s. split; [inversion 1 | intros [_ H]; inversion H].
  - cbn [addResolutions]. rewrite fmap_cons.
    destruct (decide (resolutionItem r ∈ items)) as [Hin | Hnin].
    + rewrite bool_decide_eq_true_2 by exact Hin.
      destruct (IH items Hnd) as (new & Heq & Hnd' & Hsub & Hmem).
      exists new. split; [exact Heq|]. split; [exact Hnd'|].
      split; [apply sublist_cons, Hsub|].
      intros s. rewrite Hmem, elem_of_cons. split; [tauto|].
      intros [Hs [-> | Hs']]; [contradiction | tauto].
    + rewrite bool_decide_eq_false_2 by exact Hnin.
      assert (Hnd1 : NoDup (items ++ [resolutionItem r])).
      { apply NoDup_app. split; [exact Hnd|]. split.
        - intros x Hx Hx'. apply list_elem_of_singleton in Hx'. subst. contradiction.
        - apply NoDup_singleton. }
      destruct (IH _ Hnd1) as (new & Heq & Hnd' & Hsub & Hmem).
      exists (resolutionItem r :: new). rewrite <- app_assoc in Heq, Hnd'.
      split; [exact Heq|]. split; [exact Hnd'|].
      split; [apply sublist_skip, Hsub|].
      intros s. rewrite !elem_of_cons, Hmem, elem_of_app, list_elem_of_singleton.
      split.
      * intros [-> | [Hs Hs']]; [tauto|]. split; [tauto | tauto].
      * intros [Hs [-> | Hs']]; [tauto|].
        destruct (decide (s = resolutionItem r)); [tauto|]. right. tauto.
Qed.

(** X16: filling the resolution list never shows an entry twice, even when
    a mode is reported several times: the entries already in the list stay
    in front, the new ones follow in the order of the sorted modes, and an
    entry is in the list exactly when it was there before or is the text of
    a reported mode. *)
Theorem resolution_list_filled (modes : list (Z * Z)) (items : list string) :
  NoDup items ->
  exists new : list string,
    fillResolutionList modes items = items ++ new
    /\ NoDup (fillResolutionList modes items)
    /\ new `sublist_of` (resolutionItem <$> sort_resolutions modes)
    /\ forall s, s ∈ fillResolutionList modes items
         <-> s ∈ items \/ exists mode, mode ∈ modes /\ s = resolutionItem mode.
Proof.
  intros Hnd. unfold fillResolutionList.
  destruct (addResolutions_spec (sort_resolutions modes) items Hnd)
    as (new & Heq & Hnd' & Hsub & Hmem).
  exists new. rewrite Heq. split; [reflexivity|]. split; [exact Hnd'|].
  split; [exact Hsub|].
  intros s. rewrite elem_of_app, Hmem, list_elem_of_fmap.
  assert (Hperm : forall m, m ∈ sort_resolutions modes <-> m ∈ modes).
  { intros m. unfold sort_resolutions. rewrite merge_sort_Permutation. reflexivity. }
  split.
  - intros [Hs | [_ (m & -> & Hm)]]; [left; exact Hs|].
    right. exists m. split; [apply Hperm, Hm | reflexivity].
  - intros [Hs | (m & Hm & ->)]; [left; exact Hs|].
    destruct (decide (resolutionItem m ∈ items)); [left; assumption|].
    right. split; [assumption|]. exists m. split; [reflexivity | apply Hperm, Hm].
Qed.

Lemma resolution_list_filled_witness :
  NoDup (@nil string)
  /\ exists new : list string,
    fillResolutionList [(800, 600); (1920, 1080); (800, 600)] [] = [] ++ new
    /\ NoDup (fillResolutionList [(800, 600); (1920, 1080); (800, 600)] [])
    /\ new `sublist_of`
         (resolutionItem <$> sort_resolutions [(800, 600); (1920, 1080); (800, 600)])
    /\ forall s, s ∈ fillResolutionList [(800, 600); (1920, 1080); (800, 600)] []
         <-> s ∈ (@nil string)
             \/ exists mode, mode ∈ [(800, 600); (1920, 1080); (800, 600)]
                             /\ s = resolutionItem mode.
Proof.
  split; [constructor|].
  apply (resolution_list_filled [(800, 600); (1920, 1080); (800, 600)] []).
  constructor.
Defined.

Example resolution_list_example :
  fillResolutionList [(800, 600); (1280, 800); (1920, 1080); (800, 600)] []
  = ["1920 x 1080 (16 : 9)"; "1280 x 800 (16 : 10)"; "800 x 600 (4 : 3)"]%string.
Proof. vm_compute. reflexivity. Qed.

Lemma string_append_nil (s t : string) : (s ++ t)%string = ""%string -> s = ""%string.
Proof. destruct s; [reflexivity | discriminate]. Qed.

(** X17: [getAspect] returns the empty string, and the entry of the mode
    then has no aspect ratio in parentheses, exactly when both the width
    and the height are 0. *)
Theorem getAspect_empty (x y : Z) :
  getAspect x y = ""%string <-> x = 0 /\ y = 0.
Proof.
  unfold getAspect. destruct (Z.eqb_spec (Z.gcd x y) 0) as [E | E].
  - rewrite <- Z.gcd_eq_0. tauto.
  - split.
    + destruct ((x ÷ Z.gcd x y =? 8) && (y ÷ Z.gcd x y =? 5)); [discriminate|].
      intros H. apply string_append_nil in H.
      exfalso. revert H. unfold toString.
      destruct (Z.to_int (x ÷ Z.gcd x y)) as [d | d]; simpl; [|discriminate].
      destruct d; discriminate.
    + intros H. apply Z.gcd_eq_0 in H. contradiction.
Qed.



(** X19: unless both are 0, the text is "a : b" for two numbers in the
    proportion of the width to the height that have no common divisor, or
    "16 : 10" in the place of "8 : 5". *)
Theorem getAspect_lowest_terms (x y : Z) :
  x <> 0 \/ y <> 0 ->
  exists a b : Z,
    getAspect x y = (toString a ++ " : " ++ toString b)%string
    /\ a * y = b * x
    /\ (Z.gcd a b = 1 \/ (a = 16 /\ b = 10 /\ 5 * x = 8 * y)).
Proof.
  intros Hxy. unfold getAspect.
  assert (Hg : Z.gcd x y <> 0) by (rewrite Z.gcd_eq_0; lia).
  pose proof (Z.gcd_nonneg x y) as Hpos.
  destruct (Z.gcd_divide_l x y) as [x' Hx].
  destruct (Z.gcd_divide_r x y) as [y' Hy].
  set (g := Z.gcd x y) in *.
  assert (Hqx : x ÷ g = x') by (rewrite Hx at 1; apply Z.quot_mul, Hg).
  assert (Hqy : y ÷ g = y') by (rewrite Hy at 1; apply Z.quot_mul, Hg).
  assert (Hcop : Z.gcd x' y' = 1).
  { assert (H : Z.gcd (x' * g) (y' * g) = g) by (rewrite <- Hx, <- Hy; reflexivity).
    rewrite Z.gcd_mul_mono_r_nonneg in H by lia. nia. }
  destruct (Z.eqb_spec g 0) as [E | _]; [contradiction|].
  rewrite Hqx, Hqy.
  destruct (Z.eqb_spec x' 8) as [E8 | E8]; destruct (Z.eqb_spec y' 5) as [E5 | E5];
    simpl.
  - exists 16, 10. split; [reflexivity|]. split; [lia|]. right. lia.
  - exists x', y'. split; [reflexivity|]. split; [nia | left; exact Hcop].
  - exists x', y'. split; [reflexivity|]. split; [nia | left; exact Hcop].
  - exists x', y'. split; [reflexivity|]. split; [nia | left; exact Hcop].
Qed.

Lemma getAspect_lowest_terms_witness :
  exists a b : Z,
    getAspect 1920 1080 = (toString a ++ " : " ++ toString b)%string
    /\ a * 1080 = b * 1920
    /\ (Z.gcd a b = 1 \/ (a = 16 /\ b = 10 /\ 5 * 1920 = 8 * 1080)).
Proof. apply (getAspect_lowest_terms 1920 1080). left. discriminate. Defined.

End ResolutionFacts.

(** ** Theorems: what the search pattern matches *)

Section WordMatchFacts.
Import StdRegex SettingsWindow Spec SearchSpec.

Lemma flat_map_flat_map {A B C} (f : B -> list C) (g : A -> list B) (l : list A) :
  flat_map f (flat_map g l) = flat_map (fun x => flat_map f (g x)) l.
Proof.
  induction l as [|x l IH]; [reflexivity|].
  cbn [flat_map]. rewrite flat_map_app, IH. reflexivity.
Qed.

Lemma existsb_ext {A} (f g : A -> bool) (l : list A) :
  (forall x, f x = g x) -> existsb f l = existsb g l.
Proof.
  intros H. induction l as [|x l IH]; [reflexivity|].
  cbn [existsb]. rewrite H, IH. reflexivity.
Qed.

Lemma existsb_orb {A} (f g : A -> bool) (l : list A) :
  existsb (fun x => f x || g x) l = existsb f l || existsb g l.
Proof.
  induction l as [|x l IH]; [reflexivity|].
  cbn [existsb]. rewrite IH.
  destruct (f x), (g x), (existsb f l), (existsb g l); reflexivity.
Qed.

Lemma ends_cat_lits (w : str) (r : re) (bol : bool) (s : str) :
  ends true (fold_left Cat (map Lit w) r) bol s
  = flat_map (after_prefix w) (ends true r bol s).
Proof.
  revert r. induction w as [|a w IH]; intros r.
  - cbn [map fold_left]. induction (ends true r bol s) as [|x l IHl]; [reflexivity|].
    cbn [flat_map]. rewrite <- IHl. reflexivity.
  - cbn [map fold_left]. rewrite IH. cbn [ends]. rewrite flat_map_flat_map.
    apply flat_map_ext. intros s1. unfold after_prefix.
    destruct s1 as [|c s1]; [reflexivity|].
    cbn [ends char_match prefix_ci length drop]. unfold translate.
    destruct (Ascii.eqb (tolower a) (tolower c)); [|reflexivity].
    cbn [flat_map andb]. apply app_nil_r.
Qed.

Lemma ends_literal (w : str) (bol : bool) (s : str) :
  ends true (literal w) bol s = after_prefix w s.
Proof.
  destruct w as [|a w]; [reflexivity|].
  unfold literal. cbn [map seq_of]. rewrite ends_cat_lits.
  unfold after_prefix. destruct s as [|c s]; [reflexivity|].
  cbn [ends char_match prefix_ci length drop]. unfold translate.
  destruct (Ascii.eqb (tolower a) (tolower c)); [|reflexivity].
  cbn [flat_map andb]. apply app_nil_r.
Qed.

Lemma ends_fold_alt (rs : list re) (r : re) (bol : bool) (s : str) :
  ends true (fold_left Alt rs r) bol s
  = ends true r bol s ++ flat_map (fun r' => ends true r' bol s) rs.
Proof.
  revert r. induction rs as [|r' rs IH]; intros r.
  - cbn [fold_left flat_map]. symmetry. apply app_nil_r.
  - cbn [fold_left flat_map]. rewrite IH. cbn [ends]. symmetry. apply app_assoc.
Qed.

Lemma ends_words (w : str) (ws : list str) (bol : bool) (s : str) :
  ends true (Group (alt_of (map literal (w :: ws)))) bol s
  = flat_map (fun w' => after_prefix w' s) (w :: ws).
Proof.
  cbn [ends map alt_of]. rewrite ends_fold_alt, ends_literal.
  cbn [flat_map]. f_equal.
  induction ws as [|w' ws IH]; [reflexivity|].
  cbn [map flat_map]. rewrite ends_literal, IH. reflexivity.
Qed.

Lemma shortest_None (l : list str) : shortest l = None <-> l = [].
Proof.
  destruct l as [|x l]; [tauto|]. split; [|discriminate].
  cbn [shortest]. destruct (shortest l) as [s'|]; [|discriminate].
  destruct (length s' <? length x)%nat; discriminate.
Qed.

Lemma flat_map_after_prefix_nil (ws : list str) (s : str) :
  flat_map (fun w => after_prefix w s) ws = []
  <-> existsb (fun w => prefix_ci w s) ws = false.
Proof.
  induction ws as [|w ws IH]; [tauto|].
  cbn [flat_map existsb]. unfold after_prefix at 1.
  destruct (prefix_ci w s); cbn [app orb]; [|exact IH].
  split; discriminate.
Qed.

Lemma search_words (w : str) (ws : list str) (bol : bool) (s : str) :
  search_match true (Group (alt_of (map literal (w :: ws)))) bol s = None
  <-> existsb (fun w' => contains_ci w' s) (w :: ws) = false.
Proof.
  revert bol. induction s as [|c s IH]; intros bol.
  - cbn [search_match]. rewrite ends_words.
    destruct (shortest _) eqn:E.
    + split; [discriminate|]. intros H. exfalso.
      assert (E' : shortest (flat_map (fun w' => after_prefix w' []) (w :: ws)) <> None)
        by (rewrite E; discriminate).
      apply E'. apply shortest_None, flat_map_after_prefix_nil.
      rewrite <- H. apply existsb_ext. intros x. cbn [contains_ci].
      symmetry. apply orb_false_r.
    + apply shortest_None, flat_map_after_prefix_nil in E.
      split; [|reflexivity]. intros _. rewrite <- E. apply existsb_ext.
      intros x. cbn [contains_ci]. apply orb_false_r.
  - cbn [search_match]. rewrite ends_words.
    assert (Hex : existsb (fun w' => contains_ci w' (c :: s)) (w :: ws)
                  = existsb (fun w' => prefix_ci w' (c :: s)) (w :: ws)
                    || existsb (fun w' => contains_ci w' s) (w :: ws)).
    { rewrite <- existsb_orb. apply existsb_ext. intros x. reflexivity. }
    rewrite Hex. destruct (shortest _) eqn:E.
    + split; [discriminate|]. intros H. exfalso.
      apply orb_false_iff in H. destruct H as [H _].
      apply flat_map_after_prefix_nil in H.
      apply shortest_None in H. rewrite H in E. discriminate.
    + apply shortest_None, flat_map_after_prefix_nil in E. rewrite E.
      cbn [orb]. rewrite <- (IH false).
      destruct (search_match true _ false s) as [[[p m] t]|]; cbn [fmap option_fmap option_map];
        split; discriminate || reflexivity.
Qed.

Lemma has_nul_app (a b : str) : has_nul (a ++ b) = has_nul a || has_nul b.
Proof. unfold has_nul. apply existsb_app. Qed.

Lemma star_any_consumed (fuel : nat) (bol : bool) (s t : str) :
  In t (star_ends (ends true Any) fuel bol s) ->
  exists p, s = p ++ t /\ has_nul p = false.
Proof.
  revert bol s. induction fuel as [|fuel IH]; intros bol s.
  - cbn [star_ends]. intros [<- | []]. exists []. split; reflexivity.
  - cbn [star_ends]. intros [<- | H]; [exists []; split; reflexivity|].
    apply in_flat_map in H. destruct H as (s1 & H1 & H2).
    destruct s as [|c s]; [destruct H1|].
    cbn [ends] in H1. rewrite dot_class_icase in H1.
    destruct (Ascii.eqb c Ascii.zero) eqn:Ec; [destruct H1|].
    destruct H1 as [<- | []].
    destruct (length s <? length (c :: s))%nat; [|destruct H2].
    apply IH in H2. destruct H2 as (p & -> & Hp).
    exists (c :: p). split; [reflexivity|].
    change (has_nul (c :: p)) with (Ascii.eqb c Ascii.zero || has_nul p).
    rewrite Ec, Hp. reflexivity.
Qed.

Lemma sentinel_not_later (s : str) :
  search_match true (rx_ast sentinel) false s = None.
Proof.
  induction s as [|c s IH]; cbn [rx_ast sentinel search_match ends flat_map shortest].
  - reflexivity.
  - cbn [rx_ast sentinel] in IH. rewrite IH. reflexivity.
Qed.

(** The sentinel matches exactly the texts without a NUL character. *)
Lemma sentinel_search (text : str) :
  regex_search sentinel text = negb (has_nul text).
Proof.
  destruct (has_nul text) eqn:Hn; [|apply sentinel_matches, Hn].
  unfold regex_search. apply bool_decide_eq_false_2. intros H. apply H. clear H.
  assert (Hends : ends true (rx_ast sentinel) true text = []).
  { destruct (ends true (rx_ast sentinel) true text) as [|t l] eqn:E; [reflexivity|].
    exfalso. assert (Hin : In t (ends true (rx_ast sentinel) true text))
      by (rewrite E; left; reflexivity).
    cbn [rx_ast sentinel ends] in Hin.
    apply in_flat_map in Hin. destruct Hin as (s1 & H1 & H2).
    apply in_flat_map in H1. destruct H1 as (s0 & H0 & H1).
    destruct H0 as [<- | []].
    apply star_any_consumed in H1. destruct H1 as (p & Hp & Hnul).
    destruct s1 as [|c s1]; [|destruct H2].
    rewrite app_nil_r in Hp. subst p. congruence. }
  destruct text as [|c text]; cbn [search_match]; cbn [rx_icase sentinel];
    rewrite Hends; cbn [shortest]; [reflexivity|].
  rewrite sentinel_not_later. reflexivity.
Qed.

(** The pattern of a query matches a text exactly when the text contains
    one of the words of the query, whatever the case of the letters. *)
Lemma pattern_search (query text : str) :
  regex_search (pattern query) text = matches_words (split_ws query) text.
Proof.
  unfold pattern, matches_words.
  destruct (split_ws query) as [|w ws]; [apply sentinel_search|].
  unfold regex_search. cbn [rx_ast rx_icase].
  pose proof (search_words w ws true text) as H.
  destruct (existsb _ (w :: ws)).
  - apply bool_decide_eq_true_2. intros E. apply H in E. discriminate.
  - apply bool_decide_eq_false_2. intros E. apply E, H. reflexivity.
Qed.

End WordMatchFacts.

(** ** Theorems: which pages the search lists *)

Section SearchListFacts.
Import StdRegex SettingsWindow Spec SearchSpec.

Lemma rendered (query : str) (pages : list LuaUi.ScriptSettingsPage) :
  has_nul query = false ->
  rankedPages query pages
    = Some (std_sort (weighPages (pattern query) 0 pages))
  /\ renderScriptSettings query pages
     = Some (listing (std_sort (weighPages (pattern query) 0 pages))).
Proof.
  intros Hq. unfold renderScriptSettings, rankedPages.
  rewrite wordSearch_pattern, Hq. split; reflexivity.
Qed.

Lemma weight_found (query text : str) :
  weightedSearch (pattern query) text
  = if matches_words (words query) text then 2 else 0.
Proof. rewrite weightedSearch_pattern, pattern_search, words_split_ws. reflexivity. Qed.

Lemma elem_of_weighPages (query : str) (pages : list LuaUi.ScriptSettingsPage)
    (w : WeightedPage) :
  w ∈ weighPages (pattern query) 0 pages
  <-> exists i page,
        pages !! i = Some page
        /\ w = Build_WeightedPage i (LuaUi.mName page)
                 (if matches_words (words query) (LuaUi.mName page) then -2 else 0)
                 (if matches_words (words query) (LuaUi.mSearchHints page)
                  then -2 else 0)
        /\ matches_words (words query) (LuaUi.mName page)
           || matches_words (words query) (LuaUi.mSearchHints page) = true.
Proof.
  rewrite weighPages_scored, list_elem_of_filter, elem_of_lookup_imap.
  split.
  - intros (Hnz & i & page & -> & Hi). exists i, page. split; [exact Hi|].
    unfold scores_nonzero in Hnz. cbn [mNameWeight mHintWeight] in Hnz.
    rewrite !weight_found in *. cbn [Nat.add].
    destruct (matches_words _ (LuaUi.mName page)),
             (matches_words _ (LuaUi.mSearchHints page));
      split; try reflexivity; simpl in Hnz; lia.
  - intros (i & page & Hi & -> & Hm). split.
    + unfold scores_nonzero. cbn [mNameWeight mHintWeight].
      destruct (matches_words _ (LuaUi.mName page)),
               (matches_words _ (LuaUi.mSearchHints page));
        simpl in *; try lia; discriminate.
    + exists i, page. split; [|exact Hi]. rewrite !weight_found. cbn [Nat.add].
      destruct (matches_words _ (LuaUi.mName page)),
               (matches_words _ (LuaUi.mSearchHints page)); reflexivity.
Qed.

Lemma elem_of_std_sort (l : list WeightedPage) (w : WeightedPage) :
  w ∈ std_sort l <-> w ∈ l.
Proof. rewrite (proj1 (std_sort_sorted l)). reflexivity. Qed.

(** X20: for a query without a NUL character, the search expression
    matches a text exactly when the text contains one of the words of the
    query, letters compared without regard to case; for a query without
    words, exactly when the text has no NUL character.  The score of the
    text is 2 then and 0 otherwise. *)
Theorem search_finds_a_word (query text : str) :
  has_nul query = false ->
  exists rx : regex,
    wordSearch query = Some rx
    /\ regex_search rx text = matches_words (words query) text
    /\ weightedSearch rx text
       = if matches_words (words query) text then 2 else 0.
Proof.
  intros Hq. exists (pattern query). rewrite wordSearch_pattern, Hq.
  split; [reflexivity|]. split; [|apply weight_found].
  rewrite pattern_search, words_split_ws. reflexivity.
Qed.

Lemma search_finds_a_word_witness :
  has_nul (text "ice  FIRE") = false
  /\ exists rx : regex,
    wordSearch (text "ice  FIRE") = Some rx
    /\ regex_search rx (text "Campfire") = matches_words (words (text "ice  FIRE")) (text "Campfire")
    /\ weightedSearch rx (text "Campfire")
       = if matches_words (words (text "ice  FIRE")) (text "Campfire") then 2 else 0.
Proof.
  split; [reflexivity|].
  apply (search_finds_a_word (text "ice  FIRE") (text "Campfire")). reflexivity.
Defined.

Lemma rendered_membership (query : str)
    (pages : list LuaUi.ScriptSettingsPage) :
  has_nul query = false ->
  exists items : list (str * nat),
    renderScriptSettings query pages = Some items
    /\ forall (name : str) (i : nat),
         (name, i) ∈ items
         <-> exists page,
               pages !! i = Some page /\ name = LuaUi.mName page
               /\ matches_words (words query) (LuaUi.mName page)
                  || matches_words (words query) (LuaUi.mSearchHints page) = true.
Proof.
  intros Hq. destruct (rendered query pages Hq) as [_ Hr].
  eexists. split; [exact Hr|].
  intros name i. unfold listing.
  change (map (fun w => (mName w, mIndex w)))
    with (fmap (M := list) (fun w => (mName w, mIndex w))).
  rewrite list_elem_of_fmap. split.
  - intros (w & Hw & Hin). apply elem_of_std_sort, elem_of_weighPages in Hin.
    destruct Hin as (j & page & Hj & -> & Hm). cbn [mName mIndex] in Hw.
    inversion Hw; subst. exists page. auto.
  - intros (page & Hi & -> & Hm). eexists. split; [|apply elem_of_std_sort,
      elem_of_weighPages; exists i, page; split; [exact Hi|split; [reflexivity|exact Hm]]].
    reflexivity.
Qed.

(** X21: the list shows the page at index [i] under its name exactly when
    the name or the search hints of that page match the query, and no
    index is shown twice. *)
Theorem listed_iff_found (query : str) (pages : list LuaUi.ScriptSettingsPage) :
  has_nul query = false ->
  exists items : list (str * nat),
    renderScriptSettings query pages = Some items
    /\ NoDup (map snd items)
    /\ forall (name : str) (i : nat),
         (name, i) ∈ items
         <-> exists page,
               pages !! i = Some page /\ name = LuaUi.mName page
               /\ matches_words (words query) (LuaUi.mName page)
                  || matches_words (words query) (LuaUi.mSearchHints page) = true.
Proof.
  intros Hq. destruct (rendered_membership query pages Hq) as (items & Hr & Hm).
  exists items. split; [exact Hr|]. split; [|exact Hm].
  destruct (rendered query pages Hq) as [_ Hr']. rewrite Hr' in Hr.
  injection Hr as <-.
  unfold listing. rewrite map_map. cbn [snd].
  change (map (fun w => mIndex w)) with (fmap (M := list) mIndex).
  rewrite (proj1 (std_sort_sorted _)), weighPages_scored.
  eapply sublist_NoDup; [|apply fmap_sublist, sublist_filter].
  rewrite fmap_imap.
  rewrite (imap_ext _ (fun j _ => (0 + j)%nat)) by reflexivity.
  rewrite (imap_seq pages (fun j => j) 0), list_fmap_id. apply NoDup_seq.
Qed.

Lemma listed_iff_found_witness :
  has_nul (text "fire") = false
  /\ exists items : list (str * nat),
    renderScriptSettings (text "fire")
      [page "Fireball" ""; page "Ice Spike" "fire resistant"] = Some items
    /\ NoDup (map snd items)
    /\ forall (name : str) (i : nat),
         (name, i) ∈ items
         <-> exists p,
               [page "Fireball" ""; page "Ice Spike" "fire resistant"] !! i
                 = Some p
               /\ name = LuaUi.mName p
               /\ matches_words (words (text "fire")) (LuaUi.mName p)
                  || matches_words (words (text "fire")) (LuaUi.mSearchHints p)
                  = true.
Proof.
  split; [reflexivity|].
  apply (listed_iff_found (text "fire")
           [page "Fireball" ""; page "Ice Spike" "fire resistant"]).
  reflexivity.
Defined.

Lemma StronglySorted_lookup_lt {A} (R : relation A) (l : list A) (i j : nat)
    (a b : A) :
  StronglySorted R l -> (i < j)%nat -> l !! i = Some a -> l !! j = Some b ->
  R a b.
Proof.
  intros Hs Hij Hi Hj.
  rewrite <- (take_drop_middle l j b Hj) in Hs.
  apply (StronglySorted_app_1_elem_of R _ _ a b Hs).
  - apply (list_elem_of_lookup_2 _ i). rewrite lookup_take_lt by exact Hij. exact Hi.
  - left.
Qed.

(** X22: the list is in three-level order.  Of two pages, the one shown
    higher has a name that matches whenever the name of the other matches;
    when the names agree in this, it has hints that match whenever the
    hints of the other match; and when the hints agree too, its name is
    not greater in the order of [std::string]. *)
Theorem listed_in_rank_order (query : str)
    (pages : list LuaUi.ScriptSettingsPage) :
  has_nul query = false ->
  exists items : list (str * nat),
    renderScriptSettings query pages = Some items
    /\ forall (i j : nat) (a b : str * nat) (pa pb : LuaUi.ScriptSettingsPage),
         (i < j)%nat -> items !! i = Some a -> items !! j = Some b ->
         pages !! a.2 = Some pa -> pages !! b.2 = Some pb ->
         let name_found p := matches_words (words query) (LuaUi.mName p) in
         let hint_found p := matches_words (words query) (LuaUi.mSearchHints p) in
         (name_found pb = true -> name_found pa = true)
         /\ (name_found pa = name_found pb ->
             hint_found pb = true -> hint_found pa = true)
         /\ (name_found pa = name_found pb -> hint_found pa = hint_found pb ->
             str_le a.1 b.1).
Proof.
  intros Hq. destruct (rendered query pages Hq) as [_ Hr].
  eexists. split; [exact Hr|].
  intros i j a b pa pb Hij Hi Hj Hpa Hpb.
  unfold listing in Hi, Hj.
  change (map (fun w => (mName w, mIndex w)))
    with (fmap (M := list) (fun w => (mName w, mIndex w))) in Hi, Hj.
  rewrite list_lookup_fmap in Hi, Hj.
  destruct (std_sort _ !! i) as [wa|] eqn:Ea; [|discriminate].
  destruct (std_sort _ !! j) as [wb|] eqn:Eb; [|discriminate].
  cbn [fmap option_fmap option_map] in Hi, Hj.
  injection Hi as <-. injection Hj as <-.
  pose proof (StronglySorted_lookup_lt tuple_le _ i j wa wb
                (proj2 (std_sort_sorted _)) Hij Ea Eb) as Hle.
  apply list_elem_of_lookup_2, elem_of_std_sort, elem_of_weighPages in Ea, Eb.
  destruct Ea as (ia & pa' & Hia & -> & _).
  destruct Eb as (ib & pb' & Hib & -> & _).
  cbn [fst snd mName mIndex] in *.
  rewrite Hia in Hpa. rewrite Hib in Hpb.
  injection Hpa as ->. injection Hpb as ->.
  unfold tuple_le in Hle. cbn [mNameWeight mHintWeight mName] in Hle.
  destruct (matches_words _ (LuaUi.mName pa)),
           (matches_words _ (LuaUi.mName pb)),
           (matches_words _ (LuaUi.mSearchHints pa)),
           (matches_words _ (LuaUi.mSearchHints pb));
    repeat split; intros; try reflexivity; try discriminate;
    try (exfalso; lia);
    destruct Hle as [? | [_ [? | [_ ?]]]]; try lia; assumption.
Qed.

Lemma listed_in_rank_order_witness :
  has_nul (text "fire") = false
  /\ exists items : list (str * nat),
    renderScriptSettings (text "fire")
      [page "Ice Spike" "fire resistant"; page "Fireball" ""] = Some items
    /\ forall (i j : nat) (a b : str * nat) (pa pb : LuaUi.ScriptSettingsPage),
         (i < j)%nat -> items !! i = Some a -> items !! j = Some b ->
         [page "Ice Spike" "fire resistant"; page "Fireball" ""] !! a.2 = Some pa ->
         [page "Ice Spike" "fire resistant"; page "Fireball" ""] !! b.2 = Some pb ->
         let name_found p := matches_words (words (text "fire")) (LuaUi.mName p) in
         let hint_found p :=
           matches_words (words (text "fire")) (LuaUi.mSearchHints p) in
         (name_found pb = true -> name_found pa = true)
         /\ (name_found pa = name_found pb ->
             hint_found pb = true -> hint_found pa = true)
         /\ (name_found pa = name_found pb -> hint_found pa = hint_found pb ->
             str_le a.1 b.1).
Proof.
  split; [reflexivity|].
  apply (listed_in_rank_order (text "fire")
           [page "Ice Spike" "fire resistant"; page "Fireball" ""]).
  reflexivity.
Defined.

Lemma weighPages_ext (rx1 rx2 : regex) (i : nat)
    (pages : list LuaUi.ScriptSettingsPage) :
  (forall t, weightedSearch rx1 t = weightedSearch rx2 t) ->
  weighPages rx1 i pages = weighPages rx2 i pages.
Proof.
  intros H. revert i. induction pages as [|p pages IH]; intros i; [reflexivity|].
  cbn [weighPages]. rewrite !H, IH. reflexivity.
Qed.

(** Two queries whose words match the same texts give the same list. *)
Lemma render_ext (q1 q2 : str) (pages : list LuaUi.ScriptSettingsPage) :
  has_nul q1 = has_nul q2 ->
  (forall t, matches_words (words q1) t = matches_words (words q2) t) ->
  renderScriptSettings q1 pages = renderScriptSettings q2 pages.
Proof.
  intros Hn Hm. unfold renderScriptSettings, rankedPages.
  rewrite !wordSearch_pattern, Hn. destruct (has_nul q2); [reflexivity|].
  cbn [mbind option_bind]. do 3 f_equal.
  apply weighPages_ext. intros t. rewrite !weight_found, Hm. reflexivity.
Qed.

Lemma existsb_equiv {A} (f : A -> bool) (l1 l2 : list A) :
  (forall x, x ∈ l1 -> x ∈ l2) -> existsb f l1 = true -> existsb f l2 = true.
Proof.
  intros H. rewrite !existsb_exists. intros (x & Hx & Hf).
  exists x. split; [|exact Hf]. apply list_elem_of_In, H, list_elem_of_In, Hx.
Qed.

Lemma matches_words_incl (ws1 ws2 : list str) (t : str) :
  ws1 <> [] -> (forall w, w ∈ ws1 -> w ∈ ws2) ->
  matches_words ws1 t = true -> matches_words ws2 t = true.
Proof.
  intros Hne Hsub. destruct ws1 as [|w1 ws1]; [contradiction|].
  destruct ws2 as [|w2 ws2].
  - exfalso. specialize (Hsub w1 ltac:(left)). inversion Hsub.
  - unfold matches_words. apply existsb_equiv, Hsub.
Qed.

(** X23: only the set of the words of the query matters: two queries
    with the same words, in whatever order, number or spacing, give the
    same list. *)
Theorem search_depends_on_word_set (q1 q2 : str)
    (pages : list LuaUi.ScriptSettingsPage) :
  (forall w, w ∈ words q1 <-> w ∈ words q2) ->
  renderScriptSettings q1 pages = renderScriptSettings q2 pages.
Proof.
  intros H. apply render_ext.
  - rewrite <- (has_nul_split_ws q1), <- (has_nul_split_ws q2), <- !words_split_ws.
    destruct (existsb has_nul (words q1)) eqn:E1;
      destruct (existsb has_nul (words q2)) eqn:E2; try reflexivity.
    + apply (existsb_equiv _ _ (words q2)) in E1; [congruence|apply H].
    + apply (existsb_equiv _ _ (words q1)) in E2; [congruence|apply H].
  - intros t. destruct (words q1) as [|w1 ws1] eqn:E1;
      destruct (words q2) as [|w2 ws2] eqn:E2.
    + reflexivity.
    + exfalso. specialize (proj2 (H w2) ltac:(left)). inversion 1.
    + exfalso. specialize (proj1 (H w1) ltac:(left)). inversion 1.
    + destruct (matches_words (w1 :: ws1) t) eqn:M1;
        destruct (matches_words (w2 :: ws2) t) eqn:M2; try reflexivity.
      * apply (matches_words_incl _ (w2 :: ws2)) in M1;
          [congruence | discriminate | apply H].
      * apply (matches_words_incl _ (w1 :: ws1)) in M2;
          [congruence | discriminate | apply H].
Qed.

Lemma search_depends_on_word_set_witness :
  (forall w, w ∈ words (text "fire ice fire") <-> w ∈ words (text " ice   fire"))
  /\ renderScriptSettings (text "fire ice fire") [page "Campfire" ""; page "Sun" "ice"]
     = renderScriptSettings (text " ice   fire") [page "Campfire" ""; page "Sun" "ice"].
Proof.
  assert (H : forall w, w ∈ words (text "fire ice fire")
                        <-> w ∈ words (text " ice   fire")).
  { intros w.
    change (words (text "fire ice fire")) with [text "fire"; text "ice"; text "fire"].
    change (words (text " ice   fire")) with [text "ice"; text "fire"].
    rewrite !elem_of_cons. pose proof (not_elem_of_nil w). tauto. }
  split; [exact H|].
  apply (search_depends_on_word_set (text "fire ice fire") (text " ice   fire")
           [page "Campfire" ""; page "Sun" "ice"] H).
Defined.

(** X24: a query with more words never lists fewer pages: when every word
    of a first query, which has a word, is a word of a second one, every
    entry listed for the first is listed for the second. *)
Theorem more_words_list_more (q1 q2 : str)
    (pages : list LuaUi.ScriptSettingsPage) (items1 items2 : list (str * nat)) :
  words q1 <> [] -> (forall w, w ∈ words q1 -> w ∈ words q2) ->
  renderScriptSettings q1 pages = Some items1 ->
  renderScriptSettings q2 pages = Some items2 ->
  forall item, item ∈ items1 -> item ∈ items2.
Proof.
  intros Hne Hsub H1 H2 [name i] Hin.
  assert (Hq1 : has_nul q1 = false).
  { destruct (has_nul q1) eqn:E; [|reflexivity].
    unfold renderScriptSettings, rankedPages in H1.
    rewrite wordSearch_pattern, E in H1. discriminate. }
  assert (Hq2 : has_nul q2 = false).
  { destruct (has_nul q2) eqn:E; [|reflexivity].
    unfold renderScriptSettings, rankedPages in H2.
    rewrite wordSearch_pattern, E in H2. discriminate. }
  destruct (rendered_membership q1 pages Hq1) as (it1 & R1 & M1).
  destruct (rendered_membership q2 pages Hq2) as (it2 & R2 & M2).
  rewrite R1 in H1. rewrite R2 in H2. injection H1 as <-. injection H2 as <-.
  apply M1 in Hin. apply M2. destruct Hin as (p & Hp & Hname & Hm).
  exists p. split; [exact Hp|]. split; [exact Hname|].
  apply orb_true_iff in Hm. apply orb_true_iff.
  destruct Hm as [Hm | Hm]; [left | right];
    apply (matches_words_incl (words q1)); assumption.
Qed.

Lemma more_words_list_more_witness :
  words (text "fire") <> []
  /\ (forall w, w ∈ words (text "fire") -> w ∈ words (text "fire ice"))
  /\ renderScriptSettings (text "fire") [page "Campfire" ""; page "Sun" "ice"]
     = Some [(text "Campfire", 0%nat)]
  /\ renderScriptSettings (text "fire ice") [page "Campfire" ""; page "Sun" "ice"]
     = Some [(text "Campfire", 0%nat); (text "Sun", 1%nat)]
  /\ forall item, item ∈ [(text "Campfire", 0%nat)] ->
       item ∈ [(text "Campfire", 0%nat); (text "Sun", 1%nat)].
Proof.
  assert (H0 : words (text "fire") <> []) by discriminate.
  assert (H1 : forall w, w ∈ words (text "fire") -> w ∈ words (text "fire ice")).
  { intros w.
    change (words (text "fire")) with [text "fire"].
    change (words (text "fire ice")) with [text "fire"; text "ice"].
    rewrite !elem_of_cons. tauto. }
  assert (H2 : renderScriptSettings (text "fire")
                 [page "Campfire" ""; page "Sun" "ice"]
               = Some [(text "Campfire", 0%nat)]) by reflexivity.
  assert (H3 : renderScriptSettings (text "fire ice")
                 [page "Campfire" ""; page "Sun" "ice"]
               = Some [(text "Campfire", 0%nat); (text "Sun", 1%nat)])
    by reflexivity.
  split; [exact H0|]. split; [exact H1|]. split; [exact H2|]. split; [exact H3|].
  exact (more_words_list_more (text "fire") (text "fire ice")
           [page "Campfire" ""; page "Sun" "ice"] _ _ H0 H1 H2 H3).
Defined.

End SearchListFacts.

(** ** Theorems: the search and the case of letters *)

Section CaseFacts.
Import StdRegex SettingsWindow Spec SearchSpec.

(** A change of characters that the search cannot see: it keeps the
    lower-case form, the whitespace and the NUL character. *)
Variable f : ascii -> ascii.
Hypothesis f_lower : forall c, tolower (f c) = tolower c.
Hypothesis f_space : forall c, isspace (f c) = isspace c.
Hypothesis f_nul : forall c, Ascii.eqb (f c) Ascii.zero = Ascii.eqb c Ascii.zero.

Lemma has_nul_map (s : str) : has_nul (map f s) = has_nul s.
Proof.
  induction s as [|c s IH]; [reflexivity|].
  change (has_nul (map f (c :: s)))
    with (Ascii.eqb (f c) Ascii.zero || has_nul (map f s)).
  rewrite f_nul, IH. reflexivity.
Qed.

Lemma split_ws_map (s : str) : split_ws (map f s) = map (map f) (split_ws s).
Proof.
  induction s as [|c s IH]; [reflexivity|].
  cbn [map split_ws]. rewrite f_space.
  destruct (isspace c); [exact IH|].
  destruct s as [|d s]; [reflexivity|].
  cbn [map] in *. rewrite f_space. destruct (isspace d).
  - rewrite IH. reflexivity.
  - rewrite IH. destruct (split_ws (d :: s)); reflexivity.
Qed.

Lemma prefix_ci_map_l (w s : str) : prefix_ci (map f w) s = prefix_ci w s.
Proof.
  revert s. induction w as [|a w IH]; intros s; [reflexivity|].
  destruct s as [|c s]; [reflexivity|].
  cbn [map prefix_ci]. rewrite f_lower, IH. reflexivity.
Qed.

Lemma prefix_ci_map_r (w s : str) : prefix_ci w (map f s) = prefix_ci w s.
Proof.
  revert s. induction w as [|a w IH]; intros s; [reflexivity|].
  destruct s as [|c s]; [reflexivity|].
  cbn [map prefix_ci]. rewrite f_lower, IH. reflexivity.
Qed.

Lemma contains_ci_map_l (w s : str) : contains_ci (map f w) s = contains_ci w s.
Proof.
  induction s as [|c s IH]; cbn [contains_ci]; rewrite prefix_ci_map_l;
    [reflexivity|]. rewrite IH. reflexivity.
Qed.

Lemma contains_ci_map_r (w s : str) : contains_ci w (map f s) = contains_ci w s.
Proof.
  induction s as [|c s IH].
  - cbn [map contains_ci]. reflexivity.
  - cbn [map contains_ci]. rewrite <- IH.
    change (f c :: map f s) with (map f (c :: s)). rewrite prefix_ci_map_r.
    reflexivity.
Qed.

Lemma matches_words_map_l (ws : list str) (t : str) :
  matches_words (map (map f) ws) t = matches_words ws t.
Proof.
  destruct ws as [|w ws]; [reflexivity|].
  unfold matches_words. cbn [map existsb]. rewrite contains_ci_map_l. f_equal.
  induction ws as [|w' ws IH]; [reflexivity|].
  cbn [map existsb]. rewrite contains_ci_map_l, IH. reflexivity.
Qed.

Lemma matches_words_map_r (ws : list str) (t : str) :
  matches_words ws (map f t) = matches_words ws t.
Proof.
  destruct ws as [|w ws].
  - unfold matches_words. rewrite has_nul_map. reflexivity.
  - unfold matches_words. apply existsb_ext. intros x. apply contains_ci_map_r.
Qed.

Lemma render_map (query : str) (pages : list LuaUi.ScriptSettingsPage) :
  renderScriptSettings (map f query) pages = renderScriptSettings query pages.
Proof.
  apply render_ext; [apply has_nul_map|].
  intros t. rewrite !words_split_ws, split_ws_map. apply matches_words_map_l.
Qed.

Lemma weight_map (query text : str) :
  weightedSearch (pattern query) (map f text)
  = weightedSearch (pattern query) text.
Proof. rewrite !weight_found, matches_words_map_r. reflexivity. Qed.

End CaseFacts.

Section CaseClaims.
Import StdRegex SettingsWindow Spec SearchSpec.

Lemma case_maps (c : ascii) :
  tolower (tolower c) = tolower c
  /\ tolower (toupper c) = tolower c
  /\ isspace (tolower c) = isspace c
  /\ isspace (toupper c) = isspace c
  /\ Ascii.eqb (tolower c) Ascii.zero = Ascii.eqb c Ascii.zero
  /\ Ascii.eqb (toupper c) Ascii.zero = Ascii.eqb c Ascii.zero.
Proof. destruct c as [[] [] [] [] [] [] [] []]; vm_compute; tauto. Qed.

(** X25: the search does not see the case of the letters A to Z, neither
    in the query nor in the text: writing the query in capitals or in small
    letters gives the same list, and a text scores the same as its
    upper-case and its lower-case form. *)
Theorem search_ignores_case (query text : str)
    (pages : list LuaUi.ScriptSettingsPage) :
  renderScriptSettings (map toupper query) pages
    = renderScriptSettings query pages
  /\ renderScriptSettings (map tolower query) pages
     = renderScriptSettings query pages
  /\ match wordSearch query with
     | Some rx =>
         weightedSearch rx (map toupper text) = weightedSearch rx text
         /\ weightedSearch rx (map tolower text) = weightedSearch rx text
     | None => has_nul query = true
     end.
Proof.
  split; [|split].
  - apply (render_map toupper); intros c; apply (case_maps c).
  - apply (render_map tolower); intros c; apply (case_maps c).
  - rewrite wordSearch_pattern. destruct (has_nul query); [reflexivity|].
    split.
    + apply (weight_map toupper); intros c; apply (case_maps c).
    + apply (weight_map tolower); intros c; apply (case_maps c).
Qed.

End CaseClaims.

(** ** Theorems: the brush shape and the history panel *)

Section BrushPanelFacts.
Import BrushHistory BrushPanel.

(** X26: when at least one shape button is checked, the icon the tool
    shows after [setBrushShape] is decided by the checked buttons alone,
    the last of them in the order point, square, circle, custom: neither
    the shape nor the icon from before plays a part.  With no button
    checked the shape stays as it was. *)
Theorem brush_icon_follows_checked_button
    (point square circle custom : bool) (mBrushShape : Z) (icon : string) :
  point || square || circle || custom = true ->
  setButtonIcon (setBrushShape point square circle custom mBrushShape) icon
  = (if custom then ":scenetoolbar/brush-custom"
     else if circle then ":scenetoolbar/brush-circle"
     else if square then ":scenetoolbar/brush-square"
     else ":scenetoolbar/brush-point")%string
  /\ 0 <= setBrushShape point square circle custom mBrushShape <= 3
  /\ setBrushShape false false false false mBrushShape = mBrushShape.
Proof.
  intros H. destruct point, square, circle, custom; try discriminate H;
    cbv [setBrushShape setButtonIcon]; cbn; repeat split; lia.
Qed.

Lemma brush_icon_follows_checked_button_witness :
  false || false || true || false = true
  /\ setButtonIcon (setBrushShape false false true false 0) ":scenetoolbar/brush-point"
     = ":scenetoolbar/brush-circle"%string
  /\ 0 <= setBrushShape false false true false 0 <= 3
  /\ setBrushShape false false false false 0 = 0.
Proof.
  split; [reflexivity|].
  apply (brush_icon_follows_checked_button false false true false 0
           ":scenetoolbar/brush-point").
  reflexivity.
Defined.

Lemma updateRow_insert (data : string -> string) (h : history) (t : table)
    (i : nat) :
  length t = length h ->
  updateRow data h t i
  = match h !! i with
    | Some x => <[i := (Some x, Some (data x))]> t
    | None => t
    end.
Proof.
  intros Hlen. unfold updateRow. destruct (h !! i) as [x|] eqn:Hi; [|reflexivity].
  assert (Hlt : (i < length t)%nat)
    by (rewrite Hlen; apply lookup_lt_is_Some; eauto).
  destruct (lookup_lt_is_Some_2 t i Hlt) as [cells Hc].
  unfold setItem at 2. rewrite Hc. cbn [Nat.eqb].
  unfold setItem. rewrite list_lookup_insert_eq by exact Hlt.
  cbn [Nat.eqb fst snd]. apply list_insert_insert_eq.
Qed.

Lemma updateRow_length (data : string -> string) (h : history) (t : table)
    (i : nat) :
  length t = length h -> length (updateRow data h t i) = length h.
Proof.
  intros Hlen. rewrite updateRow_insert by exact Hlen.
  destruct (h !! i); [rewrite length_insert|]; exact Hlen.
Qed.

Lemma updateRows_lookup (data : string -> string) (h : history)
    (rows : list nat) (t : table) (j : nat) :
  length t = length h ->
  length (fold_left (updateRow data h) rows t) = length h
  /\ fold_left (updateRow data h) rows t !! j
     = if decide (j ∈ rows)
       then (fun x => (Some x, Some (data x))) <$> h !! j
       else t !! j.
Proof.
  revert t. induction rows as [|i rows IH]; intros t Hlen.
  - cbn [fold_left]. split; [exact Hlen|].
    rewrite decide_False by apply not_elem_of_nil. reflexivity.
  - cbn [fold_left].
    destruct (IH (updateRow data h t i) (updateRow_length data h t i Hlen))
      as [IHlen IHj].
    split; [exact IHlen|]. rewrite IHj.
    destruct (decide (j ∈ rows)) as [Hin | Hnin].
    + rewrite decide_True by (right; exact Hin). reflexivity.
    + rewrite updateRow_insert by exact Hlen.
      destruct (decide (j = i)) as [-> | Hne].
      * rewrite decide_True by left.
        destruct (h !! i) as [x|] eqn:Hi.
        -- rewrite list_lookup_insert_eq; [reflexivity|].
           rewrite Hlen. apply lookup_lt_is_Some. eauto.
        -- cbn. apply lookup_ge_None. rewrite Hlen. apply lookup_ge_None, Hi.
      * rewrite decide_False
          by (intros Hc; apply elem_of_cons in Hc; destruct Hc; contradiction).
        destruct (h !! i); [|reflexivity].
        apply list_lookup_insert_ne. congruence.
Qed.

Lemma updatePanel_fmap (data : string -> string) (h : history)
    (t : table) :
  updatePanel data h t = (fun x => (Some x, Some (data x))) <$> h.
Proof.
  unfold updatePanel, setRowCount.
  assert (Hlen : length (resize (length h) (None, None) t) = length h)
    by apply length_resize.
  apply list_eq. intros j.
  destruct (updateRows_lookup data h (rev (seq 0 (length h))) _ j Hlen)
    as [Hl Hj].
  rewrite Hj, list_lookup_fmap.
  destruct (decide (j ∈ rev (seq 0 (length h)))) as [Hin | Hnin]; [reflexivity|].
  assert (Hge : (length h <= j)%nat).
  { destruct (Nat.le_gt_cases (length h) j) as [H | H]; [exact H|].
    exfalso. apply Hnin, list_elem_of_In. apply -> in_rev. apply in_seq. lia. }
  rewrite (proj2 (lookup_ge_None h j) Hge). cbn.
  apply lookup_ge_None. rewrite Hlen. exact Hge.
Qed.

(** X27: whatever the table held before, [updatePanel] leaves one row for
    every entry of the history, in the order of the history: row [i] shows
    the identifier [mBrushHistory[i]] in column 0 and the file name of its
    texture in column 1. *)
Theorem panel_shows_history (data : string -> string) (h : history)
    (t : table) :
  updatePanel data h t = (fun x => (Some x, Some (data x))) <$> h
  /\ length (updatePanel data h t) = length h
  /\ forall t' : table, updatePanel data h t' = updatePanel data h t.
Proof.
  split; [apply updatePanel_fmap|].
  split; [rewrite updatePanel_fmap; apply length_fmap|].
  intros t'. rewrite !updatePanel_fmap. reflexivity.
Qed.

(** X28: a click on a cell of the panel takes the texture shown in the row
    of the cell: the identifier [clicked] passes on is the one
    [updatePanel] had put in column 0 of that row, and the panel that
    [clicked] then redraws shows it in the top row, with as many rows as
    before. *)
Theorem clicked_takes_shown_texture (data : string -> string) (h : history)
    (t : table) (column row : Z) (r : clicked_result) :
  (column = 0 \/ column = 1) ->
  clicked column row h = Some r ->
  exists brushTexture : string,
    cr_emitted r = Some brushTexture
    /\ updatePanel data h t !! Z.to_nat row
       = Some (Some brushTexture, Some (data brushTexture))
    /\ updatePanel data (cr_history r) (updatePanel data h t) !! 0%nat
       = Some (Some brushTexture, Some (data brushTexture))
    /\ length (updatePanel data (cr_history r) (updatePanel data h t))
       = length (updatePanel data h t).
Proof.
  intros Hcol H. apply clicked_inv in H.
  destruct H as [(_ & _ & Hc) | (p & a & b & _ & -> & Hp & H0 & Hh & He)].
  - exfalso. destruct Hcol as [-> | ->]; discriminate Hc.
  - exists b. split; [exact He|]. rewrite !updatePanel_fmap, Hh.
    rewrite Nat2Z.id, !list_lookup_fmap, Hp, !length_fmap, !length_insert.
    assert (H0lt : (0 < length (<[p := a]> h))%nat).
    { rewrite length_insert. apply lookup_lt_is_Some. eauto. }
    rewrite list_lookup_insert_eq by exact H0lt.
    repeat split; reflexivity.
Qed.

Lemma clicked_takes_shown_texture_witness :
  (1 = 0 \/ 1 = 1)
  /\ clicked 1 2 ["C"; "B"; "A"]%string
     = Some (ClickedResult ["A"; "B"; "C"]%string (Some "A"%string))
  /\ exists brushTexture : string,
    cr_emitted (ClickedResult ["A"; "B"; "C"]%string (Some "A"%string))
      = Some brushTexture
    /\ updatePanel (fun x => x) ["C"; "B"; "A"]%string [] !! Z.to_nat 2
       = Some (Some brushTexture, Some brushTexture)
    /\ updatePanel (fun x => x)
         (cr_history (ClickedResult ["A"; "B"; "C"]%string (Some "A"%string)))
         (updatePanel (fun x => x) ["C"; "B"; "A"]%string []) !! 0%nat
       = Some (Some brushTexture, Some brushTexture)
    /\ length (updatePanel (fun x => x)
                 (cr_history (ClickedResult ["A"; "B"; "C"]%string (Some "A"%string)))
                 (updatePanel (fun x => x) ["C"; "B"; "A"]%string []))
       = length (updatePanel (fun x => x) ["C"; "B"; "A"]%string []).
Proof.
  split; [right; reflexivity|]. split; [reflexivity|].
  apply (clicked_takes_shown_texture (fun x => x) ["C"; "B"; "A"]%string [] 1 2
           (ClickedResult ["A"; "B"; "C"]%string (Some "A"%string))).
  - right. reflexivity.
  - reflexivity.
Defined.

End BrushPanelFacts.

(** ** Theorems: texture filtering and the selection in the script list *)

Section SelectionFacts.
Import StdRegex SettingsWindow Spec SearchSpec TextureFiltering ScriptList.

(** X29: a choice in the texture filtering box stores an option the caption
    knows: position 0 reads as bilinear and position 1 as trilinear, any
    other position leaves the option alone, and the option is never
    changed into "none" or into an invalid one. *)
Theorem texture_filtering_choice (pos : Z) (mipmap : string) :
  let stored := onTextureFilteringChanged pos mipmap in
  (pos = 0 ->
   textureMipmappingToStr stored = "#{SettingsMenu:TextureFilteringBilinear}"%string)
  /\ (pos = 1 ->
      textureMipmappingToStr stored
      = "#{SettingsMenu:TextureFilteringTrilinear}"%string)
  /\ (pos <> 0 -> pos <> 1 -> stored = mipmap)
  /\ (textureMipmappingToStr stored
        = "#{SettingsMenu:TextureFilteringDisabled}"%string
      \/ textureMipmappingToStr stored
         = "#{SettingsMenu:TextureFilteringOther}"%string ->
      stored = mipmap).
Proof.
  cbv zeta. unfold onTextureFilteringChanged.
  destruct (Z.eqb_spec pos 0) as [-> | H0]; [|destruct (Z.eqb_spec pos 1) as [-> | H1]].
  - repeat split; try reflexivity; try lia. intros [H | H]; discriminate H.
  - repeat split; try reflexivity; try lia. intros [H | H]; discriminate H.
  - repeat split; try reflexivity; try contradiction.
Qed.

(** X30: a click on a row of the script list selects the page shown in
    that row: [mCurrentPage] becomes the index of a page whose name is the
    text of the row and whose name or hints match the query.  An index
    past the end of the list leaves no page selected. *)
Theorem selection_attaches_shown_page (query : str)
    (pages : list LuaUi.ScriptSettingsPage) (index : Z) :
  has_nul query = false -> 0 <= index ->
  exists items : list (str * nat),
    renderScriptSettings query pages = Some items
    /\ if index <? Z.of_nat (length items)
       then exists (name : str) (i : nat) (p : LuaUi.ScriptSettingsPage),
              items !! Z.to_nat index = Some (name, i)
              /\ onScriptListSelection index items = Z.of_nat i
              /\ pages !! i = Some p
              /\ LuaUi.mName p = name
              /\ matches_words (words query) (LuaUi.mName p)
                 || matches_words (words query) (LuaUi.mSearchHints p) = true
       else onScriptListSelection index items = -1.
Proof.
  intros Hq Hindex.
  destruct (rendered_membership query pages Hq) as (items & Hr & Hm).
  exists items. split; [exact Hr|]. unfold onScriptListSelection.
  destruct (Z.ltb_spec index (Z.of_nat (length items))) as [Hlt | Hge];
    [|reflexivity].
  destruct (lookup_lt_is_Some_2 items (Z.to_nat index)) as [[name i] Hi]; [lia|].
  rewrite Hi. cbn [snd].
  destruct (proj1 (Hm name i) (list_elem_of_lookup_2 _ _ _ Hi)) as (p & Hp & -> & Hf).
  exists (LuaUi.mName p), i, p. repeat split; auto.
Qed.

Lemma selection_attaches_shown_page_witness :
  has_nul (text "fire") = false /\ 0 <= 1
  /\ exists items : list (str * nat),
    renderScriptSettings (text "fire")
      [page "Ice Spike" "fire resistant"; page "Water" ""; page "Fireball" ""]
      = Some items
    /\ if 1 <? Z.of_nat (length items)
       then exists (name : str) (i : nat) (p : LuaUi.ScriptSettingsPage),
              items !! Z.to_nat 1 = Some (name, i)
              /\ onScriptListSelection 1 items = Z.of_nat i
              /\ [page "Ice Spike" "fire resistant"; page "Water" "";
                  page "Fireball" ""] !! i = Some p
              /\ LuaUi.mName p = name
              /\ matches_words (words (text "fire")) (LuaUi.mName p)
                 || matches_words (words (text "fire")) (LuaUi.mSearchHints p)
                 = true
       else onScriptListSelection 1 items = -1.
Proof.
  split; [reflexivity|]. split; [lia|].
  apply (selection_attaches_shown_page (text "fire")
           [page "Ice Spike" "fire resistant"; page "Water" ""; page "Fireball" ""]
           1).
  - reflexivity.
  - lia.
Defined.

End SelectionFacts.
